(** * EdgeOS blacklist configuration: parser, views and entry sets

    A shallow embedding of package [edgeos] (config.go and the entry-set
    file) together with the properties of its specification.

    Go pointers are modelled by locations in an explicit store, because the
    parser keeps writing through the pending source pointer after it has
    been appended to a node, and a view shares its objects with the tree.
    A nil dereference or an index out of range is a [Panic]. *)

From stdpp Require Import gmap strings list fin_maps sorting pretty.
From Stdlib Require Import ZArith Lia Ascii.

Local Open Scope string_scope.
Local Open Scope list_scope.
Local Open Scope nat_scope.

(** ** Run-time faults and the result monad *)

Inductive panic := NilDeref | IndexOutOfRange.

Inductive result (A : Type) :=
  | Ok (a : A)
  | Panic (p : panic).
Arguments Ok {A} a.
Arguments Panic {A} p.

#[global] Instance result_ret : MRet result := λ A a, Ok a.
#[global] Instance result_bind : MBind result := λ A B f m,
  match m with
  | Ok a => f a
  | Panic p => Panic p
  end.

Definition completes {A} (r : result A) : Prop := ∃ a, r = Ok a.

(** What a function that takes two locks comes to: it returns or faults,
    or it waits for ever for a lock that it holds itself
    ([sync.RWMutex] is not reentrant). *)
Inductive locking (A : Type) :=
  | Done (r : result A)
  | Blocked.
Arguments Done {A} r.
Arguments Blocked {A}.

(** Left-to-right loop with a fallible body. *)
Fixpoint foldM {A B} (f : A → B → result A) (a : A) (l : list B) : result A :=
  match l with
  | [] => Ok a
  | b :: l' => a' ← f a b; foldM f a' l'
  end.

(** ** Package regx

    The compiled patterns [regx.Obj] are not among the sources.  They are an
    interface here: each field is [Match] and [Get] of one pattern on a
    trimmed line, [Some] of the captured groups when the pattern matches. *)
Module regx.
Class Obj (L : Type) := {
  MLTI : L → option (string * string);
  NODE : L → option string;
  LEAF : L → option (string * string);
  DSBL : L → option string;
  IPBH : L → option string;
  NAME : L → option (string * string);
  DESC : L → bool;
  CMNT : L → bool;
  MISC : L → bool;
  RBRC : L → bool;
}.
End regx.

(** ** Helpers of the package that are declared in other files

    [getType] converts between a node-type tag and its label in both
    directions ([typeStr] on a string, [typeInt] on a tag); [ntype0] is the
    zero value of [ntype]. *)
Class Helpers := {
  ntype : Type;
  ntype0 : ntype;
  preDomn : ntype;
  preHost : ntype;
  typeStr : string → ntype;
  typeInt : ntype → string;
  strToBool : string → bool;
}.

Module edgeos.
Import regx.

(** ** Constants of config.go *)
Definition all := "all".
Definition blackhole := "dns-redirect-ip".
Definition domains := "domains".
Definition files := "file".
Definition hosts := "hosts".
Definition notknown := "unknown".
Definition preNoun := "pre-configured".
Definition rootNode := "blacklist".
Definition src := "source".
Definition urls := "url".
Definition zones := "zones".
Definition ExcDomns := "domn-excludes".
Definition ExcHosts := "host-excludes".
Definition ExcRoots := "root-excludes".
Definition PreDomns := preNoun +:+ "-domain".
Definition PreHosts := preNoun +:+ "-host".

(** ** Data model *)

(** The fields of [Parms] that config.go reads. *)
Record Parms := {
  Parms_Nodes : list string;
  Parms_Ltypes : list string;
}.

(** [type entry map[string]int] *)
Abbreviation entry := (gmap string Z).

(** A pointer is nil or a location of the store. *)
Definition ptr := option nat.

Record Objects := {
  Objects_Parms : option Parms;
  x : list ptr;
}.

Section model.
Context `{Helpers}.

Record object := {
  object_Parms : option Parms;
  desc : string;
  disabled : bool;
  exc : list string;
  file : string;
  inc : list string;
  ip : string;
  ltype : string;
  name : string;
  nType : ntype;
  objects : Objects;
  prefix : string;
  url : string;
}.

(** Modelled from the spec: [newObject] (object.go is not among the
    sources) creates an empty node: no attributes, no entries. *)
Definition newObject : object :=
  {| object_Parms := None; desc := ""; disabled := false; exc := [];
     file := ""; inc := []; ip := ""; ltype := ""; name := "";
     nType := ntype0; objects := {| Objects_Parms := None; x := [] |};
     prefix := ""; url := "" |}.

(** Field assignments. *)
Definition set_desc (v : string) (ob : object) : object :=
  {| object_Parms := object_Parms ob; desc := v; disabled := disabled ob;
     exc := exc ob; file := file ob; inc := inc ob; ip := ip ob;
     ltype := ltype ob; name := name ob; nType := nType ob;
     objects := objects ob; prefix := prefix ob; url := url ob |}.
Definition set_disabled (v : bool) (ob : object) : object :=
  {| object_Parms := object_Parms ob; desc := desc ob; disabled := v;
     exc := exc ob; file := file ob; inc := inc ob; ip := ip ob;
     ltype := ltype ob; name := name ob; nType := nType ob;
     objects := objects ob; prefix := prefix ob; url := url ob |}.
Definition set_exc (v : list string) (ob : object) : object :=
  {| object_Parms := object_Parms ob; desc := desc ob; disabled := disabled ob;
     exc := v; file := file ob; inc := inc ob; ip := ip ob;
     ltype := ltype ob; name := name ob; nType := nType ob;
     objects := objects ob; prefix := prefix ob; url := url ob |}.
Definition set_file (v : string) (ob : object) : object :=
  {| object_Parms := object_Parms ob; desc := desc ob; disabled := disabled ob;
     exc := exc ob; file := v; inc := inc ob; ip := ip ob;
     ltype := ltype ob; name := name ob; nType := nType ob;
     objects := objects ob; prefix := prefix ob; url := url ob |}.
Definition set_inc (v : list string) (ob : object) : object :=
  {| object_Parms := object_Parms ob; desc := desc ob; disabled := disabled ob;
     exc := exc ob; file := file ob; inc := v; ip := ip ob;
     ltype := ltype ob; name := name ob; nType := nType ob;
     objects := objects ob; prefix := prefix ob; url := url ob |}.
Definition set_ip (v : string) (ob : object) : object :=
  {| object_Parms := object_Parms ob; desc := desc ob; disabled := disabled ob;
     exc := exc ob; file := file ob; inc := inc ob; ip := v;
     ltype := ltype ob; name := name ob; nType := nType ob;
     objects := objects ob; prefix := prefix ob; url := url ob |}.
Definition set_ltype (v : string) (ob : object) : object :=
  {| object_Parms := object_Parms ob; desc := desc ob; disabled := disabled ob;
     exc := exc ob; file := file ob; inc := inc ob; ip := ip ob;
     ltype := v; name := name ob; nType := nType ob;
     objects := objects ob; prefix := prefix ob; url := url ob |}.
Definition set_name (v : string) (ob : object) : object :=
  {| object_Parms := object_Parms ob; desc := desc ob; disabled := disabled ob;
     exc := exc ob; file := file ob; inc := inc ob; ip := ip ob;
     ltype := ltype ob; name := v; nType := nType ob;
     objects := objects ob; prefix := prefix ob; url := url ob |}.
Definition set_nType (v : ntype) (ob : object) : object :=
  {| object_Parms := object_Parms ob; desc := desc ob; disabled := disabled ob;
     exc := exc ob; file := file ob; inc := inc ob; ip := ip ob;
     ltype := ltype ob; name := name ob; nType := v;
     objects := objects ob; prefix := prefix ob; url := url ob |}.
Definition set_prefix (v : string) (ob : object) : object :=
  {| object_Parms := object_Parms ob; desc := desc ob; disabled := disabled ob;
     exc := exc ob; file := file ob; inc := inc ob; ip := ip ob;
     ltype := ltype ob; name := name ob; nType := nType ob;
     objects := objects ob; prefix := v; url := url ob |}.
Definition set_url (v : string) (ob : object) : object :=
  {| object_Parms := object_Parms ob; desc := desc ob; disabled := disabled ob;
     exc := exc ob; file := file ob; inc := inc ob; ip := ip ob;
     ltype := ltype ob; name := name ob; nType := nType ob;
     objects := objects ob; prefix := prefix ob; url := v |}.
(** [ob.Objects.x = append(ob.Objects.x, p)] *)
Definition append_x (p : ptr) (ob : object) : object :=
  {| object_Parms := object_Parms ob; desc := desc ob; disabled := disabled ob;
     exc := exc ob; file := file ob; inc := inc ob; ip := ip ob;
     ltype := ltype ob; name := name ob; nType := nType ob;
     objects := {| Objects_Parms := Objects_Parms (objects ob);
                   x := x (objects ob) ++ [p] |};
     prefix := prefix ob; url := url ob |}.

(** ** The store: the objects allocated so far, by location *)
Abbreviation heap := (list object).

(** [*p]: nil and dangling pointers fault. *)
Definition deref (h : heap) (p : ptr) : result object :=
  match p with
  | Some l => match h !! l with
              | Some ob => Ok ob
              | None => Panic NilDeref
              end
  | None => Panic NilDeref
  end.

(** [&object{...}]: allocation at the next free location. *)
Definition new (h : heap) (ob : object) : heap * nat := (h ++ [ob], length h).

(** [p.f = v] for the field assignment [f]. *)
Definition assign (h : heap) (p : ptr) (f : object → object) : result heap :=
  match p with
  | Some l => match h !! l with
              | Some ob => Ok (<[l := f ob]> h)
              | None => Panic NilDeref
              end
  | None => Panic NilDeref
  end.

(** [type tree map[string]*object]; a missing key reads as nil. *)
Record Config := {
  Config_Parms : Parms;
  tree : gmap string nat;
}.

(** ** [tree.getIP] *)
Definition getIP (b : gmap string nat) (h : heap) (node : string) : result string :=
  n ← deref h (b !! node);
  if decide (ip n = "") then
    r ← deref h (b !! rootNode); Ok (ip r)
  else Ok (ip n).


(** The node a name stands for, read through the tree and the store. *)
Definition node_of (b : gmap string nat) (h : heap) (n : string)
  : option object :=
  l ← b !! n; h !! l.

(** [c.Nodes()]: the keys of the tree in sorted order. *)
Definition Nodes (c : Config) : list string :=
  merge_sort String.le (map_to_list (tree c)).*1.

(** ** Entry sets

    [type list struct { *sync.RWMutex; entry }]: the lock of a list is a
    pointer, nil or the address of a mutex, and two lists share a lock when
    they hold the same address.  A method of a nil [*sync.RWMutex]
    dereferences it.  The functions below are those of one goroutine, and
    each of them releases what it locked before it returns: when one of
    them is entered no lock is held. *)
Record list_ := {
  RWMutex : option nat;
  list_entry : entry;
}.

(** [l.keyExists(k)]: [l.RLock()] comes first, whatever the map holds. *)
Definition keyExists (l : list_) (k : string) : result bool :=
  match RWMutex l with
  | None => Panic NilDeref
  | Some _ => Ok (bool_decide (is_Some (list_entry l !! k)))
  end.

(** [mergeList(a, b)]: [a.Lock()], then [b.Lock()] while the lock of [a] is
    held, then the entries of [b] written into the map of [a]. *)
Definition mergeList (a b : list_) : locking list_ :=
  match RWMutex a with
  | None => Done (Panic NilDeref)
  | Some ma =>
      match RWMutex b with
      | None => Done (Panic NilDeref)
      | Some mb =>
          if decide (ma = mb) then Blocked
          else Done (Ok {| RWMutex := RWMutex a;
                           list_entry :=
                             foldl (λ m kv, <[kv.1 := kv.2]> m) (list_entry a)
                                   (map_to_list (list_entry b)) |})
      end
  end.

(** [l.set(k, v)]; the list afterwards. *)
Definition set (l : list_) (k : string) (v : Z) : result list_ :=
  match RWMutex l with
  | None => Panic NilDeref
  | Some _ => Ok {| RWMutex := RWMutex l; list_entry := <[k := v]> (list_entry l) |}
  end.

(** [updateEntry(data)]: only the map of the list is made, its lock stays
    the zero value, nil. *)
Definition updateEntry (data : list string) : list_ :=
  {| RWMutex := None;
     list_entry := foldl (λ m k, <[k := 0%Z]> m) ∅ data |}.

(** [bytes.Split(b, ".")] *)
Fixpoint split_dot (s : string) : list string :=
  match s with
  | EmptyString => [EmptyString]
  | String a s' =>
      if Ascii.eqb a "."%char then EmptyString :: split_dot s'
      else match split_dot s' with
           | [] => [String a EmptyString]
           | w :: ws => String a w :: ws
           end
  end.

(** [bytes.Join(keys, ".")] *)
Fixpoint join_dot (ws : list string) : string :=
  match ws with
  | [] => EmptyString
  | w :: ws' =>
      match ws' with
      | [] => w
      | _ :: _ => w +:+ "." +:+ join_dot ws'
      end
  end.

(** Modelled from the spec: [getSubdomains] (not among the sources) yields
    the key and its dot-delimited parent domain suffixes; for
    "mail.ads.example.com" these are "mail.ads.example.com",
    "ads.example.com" and "example.com", so a suffix keeps at least two
    labels.  This is the [entry] of the list it returns, the one field
    [subKeyExists] reads. *)
Definition getSubdomains (k : string) : entry :=
  let keys := split_dot k in
  foldl (λ m i, <[join_dot (drop i keys) := 0%Z]> m) ∅
        (seq 0 (length keys - 1)).

(** The body of the loop [for k := range keys.entry] of [subKeyExists], on
    the keys in the order the iteration delivers them. *)
Fixpoint subKeyExists_range (l : list_) (keys : list string) (k : string)
  : result bool :=
  match keys with
  | [] => keyExists l k
  | k' :: keys' =>
      b ← keyExists l k';
      if b : bool then Ok true else subKeyExists_range l keys' k
  end.

Definition subKeyExists (l : list_) (k : string) : result bool :=
  subKeyExists_range l (map_to_list (getSubdomains k)).*1 k.

(** A string of at least two dot-delimited labels. *)
Definition has_dot (s : string) : Prop := ∃ a b, s = a +:+ "." +:+ b.

(** [s] is a dot-delimited parent domain suffix of [k]: what follows one of
    the dots of [k], as long as that is still a domain of two labels or
    more ("example.com" for "ads.example.com", but not "com"). *)
Definition parent_domain (s k : string) : Prop :=
  has_dot s ∧ ∃ p, k = p +:+ "." +:+ s.

(** ** Views *)

Definition excludes (c : Config) (h : heap) (nodes : option (list string))
  : result list_ :=
  exc_ ← match nodes with
         | None =>
             foldM (λ acc k,
                      n ← deref h (tree c !! k);
                      if decide (length (exc n) ≠ 0) then Ok (acc ++ exc n)
                      else Ok acc)
                   [] (Nodes c)
         | Some ns =>
             foldM (λ acc node, n ← deref h (tree c !! node); Ok (acc ++ exc n))
                   [] ns
         end;
  Ok (updateEntry exc_).

Definition addExc (c : Config) (h : heap) (node : string)
  : result (heap * Objects) :=
  let ltype_ :=
    if decide (node = domains) then ExcDomns
    else if decide (node = hosts) then ExcHosts
    else if decide (node = rootNode) then ExcRoots
    else "" in
  n ← deref h (tree c !! node);
  ip_ ← getIP (tree c) h node;
  let '(h', l) :=
    new h {| object_Parms := Some (Config_Parms c);
             desc := ltype_ +:+ " exclusions"; disabled := false;
             exc := exc n; file := ""; inc := []; ip := ip_;
             ltype := ltype_; name := ltype_; nType := typeStr ltype_;
             objects := {| Objects_Parms := None; x := [] |};
             prefix := ""; url := "" |} in
  Ok (h', {| Objects_Parms := Some (Config_Parms c); x := [Some l] |}).

Definition addInc (c : Config) (h : heap) (node : string)
  : result (heap * ptr) :=
  n ← deref h (tree c !! node);
  let inc_ := inc n in
  if decide (0 < length inc_) then
    let ltype_ : string :=
      if decide (node = domains) then typeInt preDomn
      else if decide (node = hosts) then typeInt preHost
      else "" in
    let n_ : ntype :=
      if decide (node = domains) then typeStr ltype_
      else if decide (node = hosts) then typeStr ltype_
      else ntype0 in
    ip_ ← getIP (tree c) h node;
    let '(h', l) :=
      new h {| object_Parms := Some (Config_Parms c);
               desc := ltype_ +:+ " blacklist content"; disabled := false;
               exc := []; file := ""; inc := inc_; ip := ip_;
               ltype := ltype_;
               name := "includes.[" +:+ pretty (length inc_ : nat) +:+ "]";
               nType := n_;
               objects := {| Objects_Parms := None; x := [] |};
               prefix := ""; url := "" |} in
    Ok (h', Some l)
  else Ok (h, None).

(** [tree.validate]: the store after the loop and the node's [Objects]. *)
Definition validate (b : gmap string nat) (h : heap) (node : string)
  : result (heap * Objects) :=
  n ← deref h (b !! node);
  h' ← foldM (λ h0 obj,
                ob ← deref h0 obj;
                if decide (ip ob = "") then
                  ip_ ← getIP b h0 node; assign h0 obj (set_ip ip_)
                else Ok h0)
             h (x (objects n));
  n' ← deref h' (b !! node);
  Ok (h', objects n').

(** Two objects that differ at most in their [ip]. *)
Definition same_but_ip (ob ob' : object) : Prop :=
  object_Parms ob' = object_Parms ob ∧ desc ob' = desc ob
  ∧ disabled ob' = disabled ob ∧ exc ob' = exc ob ∧ file ob' = file ob
  ∧ inc ob' = inc ob ∧ ltype ob' = ltype ob ∧ name ob' = name ob
  ∧ nType ob' = nType ob ∧ objects ob' = objects ob
  ∧ prefix ob' = prefix ob ∧ url ob' = url ob.

(** The store [h0] is the store [h] with the ip [v] filled into the
    objects of [done] whose ip was empty. *)
Definition filled_in (h : heap) (v : string) (done : list ptr) (h0 : heap)
  : Prop :=
  length h0 = length h
  ∧ ∀ l ob, h !! l = Some ob →
      h0 !! l = Some (if decide (Some l ∈ done ∧ ip ob = "")
                      then set_ip v ob else ob).

(** The store [h'] holds the objects of [h] in the same places, each changed
    at most in its [ip]. *)
Definition resolved_store (h h' : heap) : Prop := Forall2 same_but_ip h h'.

(** Every source pointer kept in the store is non-nil and leads into it. *)
Definition store_ok (h : heap) : Prop :=
  ∀ l ob p, h !! l = Some ob → p ∈ x (objects ob) →
    ∃ l', p = Some l' ∧ l' < length h.

(** The pointer leads to an object of leaf type [lt]. *)
Definition has_ltype (h : heap) (lt : string) (p : ptr) : bool :=
  match deref h p with
  | Ok ob => bool_decide (ltype ob = lt)
  | Panic _ => false
  end.

(** The source pointers of a node of the tree, none for a missing node. *)
Definition node_sources (b : gmap string nat) (h : heap) (node : string)
  : list ptr :=
  from_option (λ n, x (objects n)) [] (node_of b h node).

(** [Objects.addObj] is declared in a file that is not among the sources;
    [Get] and the unfiltered [GetAll] call it. *)
Class Methods := {
  addObj : Objects → Config → heap → string → result (heap * Objects);
}.
Context `{Methods}.

Definition Get (c : Config) (h : heap) (node : string)
  : result (heap * Objects) :=
  let o := {| Objects_Parms := Some (Config_Parms c); x := [] |} in
  if decide (node = all) then
    foldM (λ '(h0, o0) node0, addObj o0 c h0 node0) (h, o)
          (Parms_Nodes (Config_Parms c))
  else addObj o c h node.

(** The loop-carried state of [GetAll]: the store, [newDomns], [newHosts]
    and the view [o] under construction. *)
Definition GetAll_state : Type := heap * bool * bool * Objects.

Definition GetAll_ltype (c : Config) (node : string)
    (st : GetAll_state) (ltype_ : string) : result GetAll_state :=
  let '(h, newDomns, newHosts, o) := st in
  if decide (ltype_ = PreDomns) then
    if newDomns && bool_decide (node = domains) then
      '(h', p) ← addInc c h node;
      Ok (h', false, newHosts,
          {| Objects_Parms := Objects_Parms o; x := x o ++ [p] |})
    else Ok st
  else if decide (ltype_ = PreHosts) then
    if newHosts && bool_decide (node = hosts) then
      '(h', p) ← addInc c h node;
      Ok (h', newDomns, false,
          {| Objects_Parms := Objects_Parms o; x := x o ++ [p] |})
    else Ok st
  else
    '(h', obj) ← validate (tree c) h node;
    ox ← foldM (λ acc p,
                  ob ← deref h' p;
                  if decide (ltype ob = ltype_) then Ok (acc ++ [p])
                  else Ok acc)
               (x o) (x obj);
    Ok (h', newDomns, newHosts, {| Objects_Parms := Objects_Parms o; x := ox |}).

Definition GetAll (c : Config) (h : heap) (ltypes : option (list string))
  : result (heap * Objects) :=
  let o := {| Objects_Parms := Some (Config_Parms c); x := [] |} in
  '(h', _, _, o') ←
    foldM (λ (st : GetAll_state) node,
             match ltypes with
             | None =>
                 let '(h0, newDomns, newHosts, o0) := st in
                 '(h1, o1) ← addObj o0 c h0 node;
                 Ok (h1, newDomns, newHosts, o1)
             | Some lts => foldM (GetAll_ltype c node) st lts
             end)
          (h, true, true, o) (Parms_Nodes (Config_Parms c));
  Ok (h', o').

(** ** The parser *)

(** What [ReadCfg] keeps across lines: the tree [c.tree] and the store it
    writes to, and the locals [tnode], [leaf], [nodes] and [o]. *)
Record scanner := {
  c_tree : gmap string nat;
  mem : heap;
  tnode : string;
  leaf : string;
  nodes : list string;
  o : ptr;
}.

Definition with_mem (h : heap) (st : scanner) : scanner :=
  {| c_tree := c_tree st; mem := h; tnode := tnode st; leaf := leaf st;
     nodes := nodes st; o := o st |}.

Section ReadCfg.
Context {L : Type} `{regx.Obj L}.

(** The cases of the switch from [rx.NAME] on. *)
Definition dispatch_tail (st : scanner) (line : L) : result scanner :=
  match NAME line with
  | Some (k, v) =>
      if decide (k = "description") then
        h ← assign (mem st) (o st) (set_desc v); Ok (with_mem h st)
      else if decide (k = blackhole) then
        h ← assign (mem st) (o st) (set_ip v); Ok (with_mem h st)
      else if decide (k = files) then
        h1 ← assign (mem st) (o st) (set_file v);
        h2 ← assign h1 (o st) (set_ltype k);
        h3 ← assign h2 (c_tree st !! tnode st) (append_x (o st));
        Ok (with_mem h3 st)
      else if decide (k = "prefix") then
        h ← assign (mem st) (o st) (set_prefix v); Ok (with_mem h st)
      else if decide (k = urls) then
        h1 ← assign (mem st) (o st) (set_ltype k);
        h2 ← assign h1 (o st) (set_url v);
        h3 ← assign h2 (c_tree st !! tnode st) (append_x (o st));
        Ok (with_mem h3 st)
      else Ok st
  | None =>
      if DESC line || CMNT line || MISC line then Ok st
      else if RBRC line then
        if decide (1 < length (nodes st)) then
          let nodes' := take (length (nodes st) - 1) (nodes st) in
          match nodes' !! (length nodes' - 1) with
          | Some top =>
              Ok {| c_tree := c_tree st; mem := mem st; tnode := top;
                    leaf := leaf st; nodes := nodes'; o := o st |}
          | None => Panic IndexOutOfRange
          end
        else Ok st
      else Ok st
  end.

(** One iteration of the loop [for b.Scan()] on the trimmed line. *)
Definition dispatch (st : scanner) (line : L) : result scanner :=
  match MLTI line with
  | Some (k, v) =>
      if decide (k = "exclude") then
        h ← assign (mem st) (c_tree st !! tnode st) (λ n, set_exc (exc n ++ [v]) n);
        Ok (with_mem h st)
      else if decide (k = "include") then
        h ← assign (mem st) (c_tree st !! tnode st) (λ n, set_inc (inc n ++ [v]) n);
        Ok (with_mem h st)
      else Ok st
  | None =>
  match NODE line with
  | Some n =>
      let '(h, l) := new (mem st) newObject in
      Ok {| c_tree := <[n := l]> (c_tree st); mem := h; tnode := n;
            leaf := leaf st; nodes := nodes st ++ [n]; o := o st |}
  | None =>
  match LEAF line with
  | Some (k, nm) =>
      if decide (k = src) then
        let '(h, l) :=
          new (mem st) (set_nType (typeStr (tnode st)) (set_name nm newObject)) in
        Ok {| c_tree := c_tree st; mem := h; tnode := tnode st; leaf := nm;
              nodes := nodes st ++ [k]; o := Some l |}
      else
        Ok {| c_tree := c_tree st; mem := mem st; tnode := tnode st; leaf := nm;
              nodes := nodes st ++ [k]; o := o st |}
  | None =>
  match DSBL line with
  | Some v =>
      h ← assign (mem st) (c_tree st !! tnode st) (set_disabled (strToBool v));
      Ok (with_mem h st)
  | None =>
  match IPBH line with
  | Some v =>
      match nodes st !! (length (nodes st) - 1) with
      | None => Panic IndexOutOfRange
      | Some top =>
          if decide (top ≠ src) then
            h ← assign (mem st) (c_tree st !! tnode st) (set_ip v);
            Ok (with_mem h st)
          else dispatch_tail st line
      end
  | None => dispatch_tail st line
  end end end end end.

Definition scan_start (c : Config) (h : heap) : scanner :=
  {| c_tree := tree c; mem := h; tnode := ""; leaf := ""; nodes := [];
     o := None |}.

Definition EmptyConfiguration : string :=
  "Configuration data is empty, cannot continue".

Definition ReadCfg (c : Config) (h : heap) (r : list L)
  : result (Config * heap * option string) :=
  st ← foldM dispatch (scan_start c h) r;
  let c' := {| Config_Parms := Config_Parms c; tree := c_tree st |} in
  if decide (size (c_tree st) < 1) then
    Ok (c', mem st, Some EmptyConfiguration)
  else Ok (c', mem st, None).

(** The first case of the switch whose pattern matches the line (the guard
    on the context stack of the [IPBH] case is left to [dispatch]). *)
Inductive shape :=
  | SMulti (k v : string)
  | SNode (n : string)
  | SLeaf (k nm : string)
  | SDsbl (v : string)
  | SIpbh (v : string)
  | SName (k v : string)
  | SSkip
  | SRbrc
  | SNone.

Definition shape_of (line : L) : shape :=
  match MLTI line with
  | Some (k, v) => SMulti k v
  | None =>
  match NODE line with
  | Some n => SNode n
  | None =>
  match LEAF line with
  | Some (k, nm) => SLeaf k nm
  | None =>
  match DSBL line with
  | Some v => SDsbl v
  | None =>
  match IPBH line with
  | Some v => SIpbh v
  | None =>
  match NAME line with
  | Some (k, v) => SName k v
  | None =>
      if DESC line || CMNT line || MISC line then SSkip
      else if RBRC line then SRbrc else SNone
  end end end end end end.

(** No pointer of the tree dangles, and the pending source is an object of
    its own, not a node of the tree. *)
Definition scanner_ok (st : scanner) : Prop :=
  (∀ n l, c_tree st !! n = Some l → l < length (mem st))
  ∧ (∀ l, o st = Some l →
       l < length (mem st) ∧ ∀ n, c_tree st !! n ≠ Some l).

Definition Config_ok (c : Config) (h : heap) : Prop :=
  ∀ n l, tree c !! n = Some l → l < length h.

(** *** Context before context-dependent lines

    What the lines read so far say about the context: a node-open line has
    been read, a source leaf-open line has been read, and the last block
    opened by a leaf-open line has not been closed yet. *)
Record context := {
  seen_node : bool;
  seen_source : bool;
  in_leaf : bool;
}.

Definition no_context : context :=
  {| seen_node := false; seen_source := false; in_leaf := false |}.

(** The keys the [NAME] case acts on. *)
Definition named_key (k : string) : bool :=
  bool_decide (k ∈ ["description"; blackhole; files; "prefix"; urls]).

(** The precondition in the words of the specification: every multi-value,
    disabled-flag and bare-IP line comes after a node-open line, and every
    named-attribute line of the five keys after a source leaf-open line. *)
Fixpoint preceded_by_context (f : context) (r : list L) : bool :=
  match r with
  | [] => true
  | l :: r' =>
      match shape_of l with
      | SMulti _ _ | SDsbl _ | SIpbh _ =>
          seen_node f && preceded_by_context f r'
      | SNode _ =>
          preceded_by_context
            {| seen_node := true; seen_source := seen_source f;
               in_leaf := in_leaf f |} r'
      | SLeaf k _ =>
          preceded_by_context
            {| seen_node := seen_node f;
               seen_source := seen_source f || bool_decide (k = src);
               in_leaf := in_leaf f |} r'
      | SName k _ =>
          (negb (named_key k) || seen_source f) && preceded_by_context f r'
      | SSkip | SRbrc | SNone => preceded_by_context f r'
      end
  end.

(** The precondition under which the scan is shown to complete, line by
    line ([None]: the line comes without its context).  Beyond
    [preceded_by_context]: a leaf-open line also comes after a node-open
    line, no node is named "source", and a block opened by a leaf-open line
    is closed before the next block opens. *)
Definition context_step (f : context) (l : L) : option context :=
  match shape_of l with
  | SMulti _ _ | SDsbl _ | SIpbh _ => if seen_node f then Some f else None
  | SNode n =>
      if negb (in_leaf f) && negb (bool_decide (n = src))
      then Some {| seen_node := true; seen_source := seen_source f;
                   in_leaf := false |}
      else None
  | SLeaf k _ =>
      if seen_node f && negb (in_leaf f)
      then Some {| seen_node := seen_node f;
                   seen_source := seen_source f || bool_decide (k = src);
                   in_leaf := true |}
      else None
  | SName k _ =>
      if negb (named_key k) || seen_source f then Some f else None
  | SRbrc =>
      Some {| seen_node := seen_node f; seen_source := seen_source f;
              in_leaf := false |}
  | SSkip | SNone => Some f
  end.

Fixpoint context_exists (f : context) (r : list L) : bool :=
  match r with
  | [] => true
  | l :: r' =>
      match context_step f l with
      | Some f' => context_exists f' r'
      | None => false
      end
  end.

(** A name on the context stack that stands for a node of the tree. *)
Definition node_entry (b : gmap string nat) (n : string) : Prop :=
  is_Some (b !! n) ∧ n ≠ src.

(** The state the scan is in when the lines read so far satisfy
    [context_exists]. *)
Definition context_inv (f : context) (st : scanner) : Prop :=
  scanner_ok st
  ∧ (seen_node f = true →
       nodes st ≠ [] ∧ is_Some (c_tree st !! tnode st))
  ∧ (Forall (node_entry (c_tree st)) (nodes st)
     ∨ (in_leaf f = true ∧ 2 ≤ length (nodes st)
        ∧ Forall (node_entry (c_tree st))
                 (take (length (nodes st) - 1) (nodes st))
        ∧ (last (nodes st) = Some src → is_Some (o st))))
  ∧ (seen_source f = true → is_Some (o st) ∧ seen_node f = true).

(** A line the scan passes over: a comment or other ignored shape, a line
    no pattern matches, a named attribute with a key the [NAME] case does
    not know, or a multi-value line that neither excludes nor includes. *)
Definition ignored (l : L) : Prop :=
  match shape_of l with
  | SSkip | SNone => True
  | SName k _ => named_key k = false
  | SMulti k _ => k ≠ "exclude" ∧ k ≠ "include"
  | _ => False
  end.

(** The object at a location has the given [ip]. *)
Definition ip_at (h : heap) (l : nat) (v : string) : Prop :=
  ∃ ob, h !! l = Some ob ∧ ip ob = v.

End ReadCfg.
End model.

Abbreviation heap := (list object).

(** ** The line shapes of the specification

    Modelled from the spec: the line categories of its section 4.1 (the
    patterns of package regx are not among the sources), one constructor
    per recognised shape; [other] is a line no pattern matches. *)
Inductive cfgline :=
  | multi (kind value : string)
  | node_open (n : string)
  | leaf_open (kind nm : string)
  | disabled_flag (v : string)
  | blackhole_ip (v : string)
  | named (key value : string)
  | misc
  | close_brace
  | other.

Definition cfgline_rx : regx.Obj cfgline :=
  {| MLTI l := match l with multi k v => Some (k, v) | _ => None end;
     NODE l := match l with node_open n => Some n | _ => None end;
     LEAF l := match l with leaf_open k nm => Some (k, nm) | _ => None end;
     DSBL l := match l with disabled_flag v => Some v | _ => None end;
     IPBH l := match l with blackhole_ip v => Some v | _ => None end;
     NAME l := match l with named k v => Some (k, v) | _ => None end;
     DESC l := false;
     CMNT l := false;
     MISC l := match l with misc => true | _ => false end;
     RBRC l := match l with close_brace => true | _ => false end |}.

(** The settings of the package's tests: nodes and leaf types. *)
Definition test_Parms : Parms :=
  {| Parms_Nodes := [domains; hosts];
     Parms_Ltypes := [files; PreDomns; PreHosts; urls] |}.

(** A configuration before parsing. *)
Definition NewConfig : Config := {| Config_Parms := test_Parms; tree := ∅ |}.

(** The tree and the store after parsing the two empty blocks
    [domains { }] and [hosts { }]: two nodes without includes. *)
Definition bare_nodes : Config :=
  {| Config_Parms := test_Parms;
     tree := <[hosts := 1]> (<[domains := 0]> ∅) |}.

Definition bare_store `{Helpers} : heap := [newObject; newObject].

(** A parsed configuration: the root with a blackhole ip and an exclusion,
    "domains" with an exclusion and two sources (the first without an ip of
    its own), and "hosts" with its own ip. *)
Definition parsed_tree : gmap string nat :=
  <[hosts := 2]> (<[domains := 1]> (<[rootNode := 0]> ∅)).

Definition parsed : Config :=
  {| Config_Parms := test_Parms; tree := parsed_tree |}.

Definition parsed_store `{Helpers} : heap :=
  [ set_exc ["a.com"] (set_ip "0.0.0.0" newObject);
    append_x (Some 4) (append_x (Some 3) (set_exc ["b.com"] newObject));
    set_ip "192.168.168.1" newObject;
    set_url "https://x/list" (set_ltype urls (set_name "mysrc" newObject));
    set_file "/tmp/list" (set_ltype files
      (set_ip "10.0.0.1" (set_name "local" newObject))) ].

(** The scenario of the specification, line by line. *)
Definition scenario : list cfgline :=
  [ node_open rootNode; disabled_flag "false"; blackhole_ip "0.0.0.0";
    node_open domains; multi "exclude" "example.org";
    leaf_open src "mysrc"; named urls "https://x/list";
    close_brace; close_brace; close_brace ].

(** What [ReadCfg] makes of the scenario. *)
Definition scenario_config : Config :=
  {| Config_Parms := test_Parms;
     tree := <[domains := 1]> (<[rootNode := 0]> ∅) |}.

Definition scenario_store `{Helpers} : heap :=
  [ set_ip "0.0.0.0" newObject;
    append_x (Some 2) (set_exc ["example.org"] newObject);
    set_url "https://x/list"
      (set_ltype urls
         (set_nType (typeStr domains) (set_name "mysrc" newObject))) ].

(** The scanner after the lines [domains {] and [exclude a.com]. *)
Definition after_exclude `{Helpers} : scanner :=
  {| c_tree := <[domains := 0]> ∅; mem := [set_exc ["a.com"] newObject];
     tnode := domains; leaf := ""; nodes := [domains]; o := None |}.

(** The scanner after the lines [blacklist {] and [disabled false] of the
    scenario, in the root block. *)
Definition in_root `{Helpers} : scanner :=
  {| c_tree := <[rootNode := 0]> ∅;
     mem := [set_disabled (strToBool "false") newObject];
     tnode := rootNode; leaf := ""; nodes := [rootNode]; o := None |}.

(** The scanner inside the source block of the scenario. *)
Definition in_source `{Helpers} : scanner :=
  {| c_tree := <[domains := 1]> (<[rootNode := 0]> ∅);
     mem := [ set_ip "0.0.0.0" newObject;
              set_exc ["example.org"] newObject;
              set_nType (typeStr domains) (set_name "mysrc" newObject) ];
     tnode := domains; leaf := "mysrc"; nodes := [rootNode; domains; src];
     o := Some 2 |}.

(** Two entry sets with locks of their own, at the addresses 0 and 1. *)
Definition excluded_domains : list_ :=
  {| RWMutex := Some 0; list_entry := {["example.com" := 0%Z]} |}.

Definition excluded_hosts : list_ :=
  {| RWMutex := Some 1;
     list_entry := {["example.com" := 1%Z; "ads.example.org" := 0%Z]} |}.

(** An [addObj] for the inputs below, none of which reaches it (they ask
    [GetAll] for leaf types): it adds nothing to the view. *)
Definition addObj_nothing `{Helpers} : Methods :=
  {| addObj view _ h _ := Ok (h, view) |}.

(** Node-type tags identified with their labels. *)
Definition label_helpers : Helpers :=
  {| ntype := string; ntype0 := ""; preDomn := PreDomns; preHost := PreHosts;
     typeStr s := s; typeInt s := s;
     strToBool s := bool_decide (s = "true") |}.

(** * Properties *)

Section properties.
Context `{Helpers}.

(** ** IP inheritance *)

(** C2: in a tree holding the root node "blacklist" and a node N, the
    resolved IP of N is N's own ip when that is non-empty, the root's ip
    when N's ip is empty, and the empty string when both are empty. *)
Theorem C2_getIP_inherits (b : gmap string nat) (h : heap) (node : string)
    (ln lr : nat) (n r : object) :
  b !! node = Some ln → h !! ln = Some n →
  b !! rootNode = Some lr → h !! lr = Some r →
  (ip n ≠ "" → getIP b h node = Ok (ip n))
  ∧ (ip n = "" → getIP b h node = Ok (ip r))
  ∧ (ip n = "" → ip r = "" → getIP b h node = Ok "").
Proof.
  intros Hn Hln Hr Hlr. unfold getIP.
  rewrite Hn, Hr. simpl. rewrite Hln, Hlr. simpl.
  repeat split.
  - intros Hne. by destruct (decide (ip n = "")).
  - intros He. by destruct (decide (ip n = "")).
  - intros He Her. destruct (decide (ip n = "")); [by rewrite Her | done].
Qed.

End properties.

(** ** Entry sets *)

Section entries.

Lemma append_nil_l (s : string) : "" +:+ s = s.
Proof. reflexivity. Qed.

Lemma append_cons (a : ascii) (s t : string) :
  String a s +:+ t = String a (s +:+ t).
Proof. reflexivity. Qed.

Lemma append_assoc (a b c : string) : (a +:+ b) +:+ c = a +:+ b +:+ c.
Proof.
  induction a as [|ch a IH]; [done|]. rewrite !append_cons. by f_equal.
Qed.

Lemma split_dot_cons (s : string) : ∃ w ws, split_dot s = w :: ws.
Proof.
  induction s as [|a s (w & ws & IH)]; simpl; [eauto|].
  destruct (Ascii.eqb a "."); [eauto|]. rewrite IH. eauto.
Qed.

Lemma join_dot_cons (w w' : string) (ws : list string) :
  join_dot (w :: w' :: ws) = w +:+ "." +:+ join_dot (w' :: ws).
Proof. done. Qed.

Lemma join_split_dot (s : string) : join_dot (split_dot s) = s.
Proof.
  induction s as [|a s IH]; [done|]. simpl.
  destruct (split_dot_cons s) as (w & ws & E). rewrite E in *.
  destruct (Ascii.eqb a ".") eqn:Ea.
  - apply Ascii.eqb_eq in Ea as ->. rewrite join_dot_cons, IH. done.
  - destruct ws as [|w' ws]; simpl in *; by rewrite <- IH.
Qed.

Lemma split_dot_app (p s : string) :
  split_dot (p +:+ "." +:+ s) = split_dot p ++ split_dot s.
Proof.
  induction p as [|a p IH]; [done|]. simpl.
  destruct (Ascii.eqb a "."); [by rewrite IH|].
  rewrite IH. destruct (split_dot_cons p) as (w & ws & ->). done.
Qed.

Lemma join_dot_app (a b : list string) :
  a ≠ [] → b ≠ [] →
  join_dot (a ++ b) = join_dot a +:+ "." +:+ join_dot b.
Proof.
  intros Ha Hb. induction a as [|w a IH]; [done|].
  destruct a as [|w' a].
  - destruct b as [|w' b]; [done|]. done.
  - rewrite <- !app_comm_cons, !join_dot_cons, app_comm_cons, IH by done.
    by rewrite !append_assoc.
Qed.

Lemma has_dot_split (s : string) :
  has_dot s ↔ 2 ≤ length (split_dot s).
Proof.
  split.
  - intros (a & b & ->). rewrite split_dot_app, length_app.
    destruct (split_dot_cons a) as (? & ? & ->).
    destruct (split_dot_cons b) as (? & ? & ->). simpl. lia.
  - intros Hlen. rewrite <- (join_split_dot s).
    destruct (split_dot s) as [|w [|w' ws]]; simpl in Hlen; [lia..|].
    exists w, (join_dot (w' :: ws)). apply join_dot_cons.
Qed.

(** The keys [getSubdomains] yields, as suffixes of the key. *)
Lemma subdomain_suffix (k s : string) :
  (∃ i, i < length (split_dot k) - 1 ∧ s = join_dot (drop i (split_dot k)))
  ↔ has_dot s ∧ (s = k ∨ ∃ p, k = p +:+ "." +:+ s).
Proof.
  split.
  - intros (i & Hi & ->). split.
    + pose proof (length_drop (split_dot k) i) as Hlen.
      destruct (drop i (split_dot k)) as [|w [|w' ws]]; simpl in Hlen;
        [lia..|].
      exists w, (join_dot (w' :: ws)). apply join_dot_cons.
    + destruct i as [|i]; [left; by rewrite drop_0, join_split_dot|].
      right. exists (join_dot (take (S i) (split_dot k))).
      rewrite <- join_dot_app.
      * by rewrite take_drop, join_split_dot.
      * intros E%(f_equal length). rewrite length_take in E.
        change (length (@nil string)) with 0 in E. lia.
      * intros E%(f_equal length). rewrite length_drop in E.
        change (length (@nil string)) with 0 in E. lia.
  - intros [Hdot [->|[p ->]]].
    + exists 0. apply has_dot_split in Hdot.
      split; [lia | by rewrite drop_0, join_split_dot].
    + exists (length (split_dot p)). apply has_dot_split in Hdot.
      rewrite split_dot_app, length_app, drop_app_length.
      split; [lia | by rewrite join_split_dot].
Qed.

Lemma foldl_insert_is_Some {A} (f : A → string) (l : list A) (m : entry)
    (s : string) :
  is_Some (foldl (λ m i, <[f i := 0%Z]> m) m l !! s)
  ↔ is_Some (m !! s) ∨ ∃ i, i ∈ l ∧ s = f i.
Proof.
  revert m. induction l as [|a l IH]; intros m; simpl.
  - split; [eauto|]. intros [?|(i & Hi & _)]; [done|].
    by apply elem_of_nil in Hi.
  - rewrite IH. split.
    + intros [Hs|(i & Hi & ->)].
      * destruct (decide (f a = s)) as [<-|Hne].
        -- right. exists a. split; [by left | done].
        -- rewrite lookup_insert_ne in Hs by done. eauto.
      * right. exists i. split; [by right | done].
    + intros [Hs|(i & Hi & ->)].
      * left. destruct (decide (f a = s)) as [<-|Hne].
        -- rewrite lookup_insert_eq. eauto.
        -- by rewrite lookup_insert_ne.
      * apply elem_of_cons in Hi as [->|Hi].
        -- left. rewrite lookup_insert_eq. eauto.
        -- right. eauto.
Qed.

Lemma getSubdomains_keys (k s : string) :
  s ∈ (map_to_list (getSubdomains k)).*1
  ↔ has_dot s ∧ (s = k ∨ ∃ p, k = p +:+ "." +:+ s).
Proof.
  rewrite <- subdomain_suffix. unfold getSubdomains.
  rewrite list_elem_of_fmap. split.
  - intros ([s' z] & -> & Hin%elem_of_map_to_list). simpl.
    assert (Hs : is_Some (foldl (λ m i, <[join_dot (drop i (split_dot k)) := 0%Z]> m)
                           (∅ : entry) (seq 0 (length (split_dot k) - 1)) !! s'))
      by eauto.
    apply foldl_insert_is_Some in Hs as [Hs|(i & Hi & ->)].
    + rewrite lookup_empty in Hs. by destruct Hs.
    + apply elem_of_seq in Hi. exists i. split; [lia | done].
  - intros (i & Hi & ->).
    assert (Hs : is_Some (foldl (λ m i, <[join_dot (drop i (split_dot k)) := 0%Z]> m)
                           (∅ : entry) (seq 0 (length (split_dot k) - 1))
                         !! join_dot (drop i (split_dot k)))).
    { apply foldl_insert_is_Some. right. exists i. split; [|done].
      apply elem_of_seq. lia. }
    destruct Hs as [z Hz]. exists (join_dot (drop i (split_dot k)), z).
    split; [done|]. by apply elem_of_map_to_list.
Qed.

Lemma keyExists_locked (l : list_) (m : nat) (k : string) :
  RWMutex l = Some m →
  keyExists l k = Ok (bool_decide (is_Some (list_entry l !! k))).
Proof. unfold keyExists. by intros ->. Qed.

Lemma keyExists_unlocked (l : list_) (k : string) :
  RWMutex l = None → keyExists l k = Panic NilDeref.
Proof. unfold keyExists. by intros ->. Qed.

Lemma keyExists_true (l : list_) (k : string) :
  keyExists l k = Ok true
  ↔ is_Some (RWMutex l) ∧ is_Some (list_entry l !! k).
Proof.
  unfold keyExists. destruct (RWMutex l) as [m|].
  - split.
    + intros [= Hb]. split; [by eexists|]. exact (proj1 (bool_decide_eq_true _) Hb).
    + intros [_ Hk]. f_equal. exact (proj2 (bool_decide_eq_true _) Hk).
  - split; [done|]. by intros [[? ?] _].
Qed.

Lemma subKeyExists_range_locked (l : list_) (m : nat) (keys : list string)
    (k : string) :
  RWMutex l = Some m →
  ∃ b, subKeyExists_range l keys k = Ok b
       ∧ (b = true ↔ is_Some (list_entry l !! k)
                     ∨ ∃ k', k' ∈ keys ∧ is_Some (list_entry l !! k')).
Proof.
  intros Hm. induction keys as [|k0 keys IH]; cbn [subKeyExists_range].
  - rewrite (keyExists_locked l m) by done. eexists. split; [done|].
    rewrite bool_decide_eq_true. split; [eauto|].
    intros [?|(k' & Hk' & _)]; [done|]. by apply elem_of_nil in Hk'.
  - rewrite (keyExists_locked l m) by done.
    destruct (bool_decide (is_Some (list_entry l !! k0))) eqn:E.
    + exists true. split; [done|]. split; [|done]. intros _. right.
      exists k0. split; [by left | exact (proj1 (bool_decide_eq_true _) E)].
    + destruct IH as (b & Hb & Hiff). exists b. split; [exact Hb|].
      rewrite Hiff. split.
      * intros [?|(k' & Hk' & ?)]; [by left|].
        right. exists k'. split; [by right | done].
      * intros [?|(k' & Hk' & Hs)]; [by left|].
        apply elem_of_cons in Hk' as [->|Hk']; [|eauto].
        apply bool_decide_eq_false in E. by destruct E.
Qed.

Lemma subKeyExists_range_unlocked (l : list_) (keys : list string)
    (k : string) :
  RWMutex l = None → subKeyExists_range l keys k = Panic NilDeref.
Proof.
  intros Hm. destruct keys as [|k0 keys]; cbn [subKeyExists_range];
    by rewrite keyExists_unlocked.
Qed.

Lemma subKeyExists_range_true (l : list_) (keys : list string) (k : string) :
  subKeyExists_range l keys k = Ok true
  ↔ keyExists l k = Ok true ∨ ∃ k', k' ∈ keys ∧ keyExists l k' = Ok true.
Proof.
  destruct (RWMutex l) as [m|] eqn:Hm.
  - destruct (subKeyExists_range_locked l m keys k Hm) as (b & Hb & Hiff).
    rewrite Hb. setoid_rewrite keyExists_true. rewrite Hm. split.
    + intros [= ->]. destruct (proj1 Hiff eq_refl) as [?|(k' & ? & ?)].
      * left. split; [by eexists | done].
      * right. exists k'. split; [done|]. split; [by eexists | done].
    + intros Hr. f_equal. apply Hiff.
      destruct Hr as [[_ ?]|(k' & ? & _ & ?)]; [by left|]. right. eauto.
  - rewrite subKeyExists_range_unlocked by done.
    setoid_rewrite keyExists_unlocked; [|done..].
    split; [done|]. by intros [?|(? & _ & ?)].
Qed.


(** *** Further properties of entry sets *)

Lemma updateEntry_lookup (data : list string) (k : string) :
  list_entry (updateEntry data) !! k
  = if decide (k ∈ data) then Some 0%Z else None.
Proof.
  unfold updateEntry. cbn [list_entry].
  assert (Hgen : ∀ (m : entry),
            (∀ k' v, m !! k' = Some v → v = 0%Z) →
            foldl (λ m k, <[k := 0%Z]> m) m data !! k
            = if decide (k ∈ data) then Some 0%Z else m !! k).
  { induction data as [|a data IH]; intros m Hm; cbn [foldl].
    - case_decide as Hd; [by apply elem_of_nil in Hd | done].
    - rewrite IH.
      + destruct (decide (k ∈ data)) as [Hin|Hnin].
        * case_decide as Hd; [done|]. destruct Hd. by right.
        * destruct (decide (a = k)) as [->|Hne].
          -- rewrite lookup_insert_eq. case_decide as Hd; [done|].
             destruct Hd. by left.
          -- rewrite lookup_insert_ne by done. case_decide as Hd; [|done].
             apply elem_of_cons in Hd as [->|?]; done.
      + intros k' v. destruct (decide (a = k')) as [->|Hne].
        * rewrite lookup_insert_eq. by intros [= <-].
        * rewrite lookup_insert_ne by done. apply Hm. }
  rewrite Hgen; [by rewrite lookup_empty|].
  intros k' v. by rewrite lookup_empty.
Qed.

(** [updateEntry] turns a slice into the map of a list: the keys of the map
    are exactly the strings of the slice, every counter is 0, and two
    slices with the same elements (in any order, with any repetitions) give
    the same list.  The list has no lock, so the exact lookup on it
    faults. *)
Theorem updateEntry_is_the_set_of_the_slice (data : list string) :
  (∀ k, is_Some (list_entry (updateEntry data) !! k) ↔ k ∈ data)
  ∧ (∀ k v, list_entry (updateEntry data) !! k = Some v → v = 0%Z)
  ∧ (∀ data', (∀ k, k ∈ data ↔ k ∈ data') →
       updateEntry data' = updateEntry data)
  ∧ RWMutex (updateEntry data) = None
  ∧ (∀ k, keyExists (updateEntry data) k = Panic NilDeref).
Proof.
  split; [|split; [|split; [|split]]].
  - intros k. rewrite updateEntry_lookup.
    destruct (decide (k ∈ data)) as [Hd|Hd]; split;
      [done | by eexists | by intros [? ?] | done].
  - intros k v. rewrite updateEntry_lookup. case_decide; [|done].
    by intros [= <-].
  - intros data' Hsame.
    assert (Hmap : list_entry (updateEntry data')
                   = list_entry (updateEntry data)).
    { apply map_eq. intros k. rewrite !updateEntry_lookup.
      apply decide_ext. by rewrite Hsame. }
    unfold updateEntry in *. cbn [list_entry] in Hmap. by rewrite Hmap.
  - done.
  - intros k. by apply keyExists_unlocked.
Qed.

Lemma foldl_insert_pairs (l : list (string * Z)) (a : entry) (k : string) :
  NoDup l.*1 →
  (∀ v, (k, v) ∈ l → foldl (λ m kv, <[kv.1 := kv.2]> m) a l !! k = Some v)
  ∧ (k ∉ l.*1 → foldl (λ m kv, <[kv.1 := kv.2]> m) a l !! k = a !! k).
Proof.
  revert a. induction l as [|[k0 v0] l IH]; intros a Hnd; simpl.
  - split; [|done]. intros v Hin. by apply elem_of_nil in Hin.
  - apply NoDup_cons in Hnd as [Hk0 Hnd].
    destruct (IH (<[k0 := v0]> a) Hnd) as [IHin IHout]. split.
    + intros v [[= -> ->]|Hin]%elem_of_cons; [|by apply IHin].
      rewrite IHout by done. apply lookup_insert_eq.
    + intros Hnin. apply not_elem_of_cons in Hnin as [Hne Hnin].
      rewrite IHout by done. by rewrite lookup_insert_ne.
Qed.

Lemma foldl_insert_union (a b : entry) :
  foldl (λ m kv, <[kv.1 := kv.2]> m) a (map_to_list b) = b ∪ a.
Proof.
  apply map_eq. intros k.
  destruct (foldl_insert_pairs (map_to_list b) a k
              (NoDup_fst_map_to_list b)) as [Hin Hout].
  rewrite lookup_union. destruct (b !! k) as [v|] eqn:Eb.
  - rewrite (Hin v) by (by apply elem_of_map_to_list).
    by destruct (a !! k).
  - rewrite Hout.
    + by destruct (a !! k).
    + intros ([k' v] & -> & Hkv%elem_of_map_to_list)%list_elem_of_fmap.
      simpl in Eb. congruence.
Qed.


(** Whatever [getSubdomains] yields, the suffix lookup finds every key the
    exact lookup finds, finds nothing in the empty set, and keeps finding a
    key when entries are added to the set. *)
Theorem subKeyExists_extends_keyExists (l l' : list_) (k : string) :
  (keyExists l k = Ok true → subKeyExists l k = Ok true)
  ∧ (∀ m, subKeyExists {| RWMutex := Some m; list_entry := ∅ |} k = Ok false)
  ∧ ((∀ s, keyExists l s = Ok true → keyExists l' s = Ok true) →
       subKeyExists l k = Ok true → subKeyExists l' k = Ok true).
Proof.
  unfold subKeyExists. split; [|split].
  - intros Hk. apply subKeyExists_range_true. by left.
  - intros m.
    destruct (subKeyExists_range_locked
                {| RWMutex := Some m; list_entry := ∅ |} m
                (map_to_list (getSubdomains k)).*1 k eq_refl)
      as (b & Hb & Hiff).
    rewrite Hb. f_equal. apply not_true_is_false. rewrite Hiff.
    cbn [list_entry].
    intros [[? Hk]|(s & _ & [? Hk])]; by rewrite lookup_empty in Hk.
  - intros Hsub. rewrite !subKeyExists_range_true.
    intros [Hk|(s & Hin & Hs)]; [left; by apply Hsub|].
    right. exists s. split; [done | by apply Hsub].
Qed.

End entries.

(** ** Lazy resolution of source ips *)

Section views.
Context `{Helpers}.

Lemma getIP_filled_in (b : gmap string nat) (h h0 : heap) (node : string)
    (ln lr : nat) (n r : object) (v : string) (done : list ptr) :
  b !! node = Some ln → h !! ln = Some n →
  b !! rootNode = Some lr → h !! lr = Some r →
  getIP b h node = Ok v →
  filled_in h v done h0 →
  getIP b h0 node = Ok v.
Proof.
  intros Hn Hln Hr Hlr Hv [_ Hfill]. unfold getIP in *.
  rewrite Hn, Hr in *. simpl in *.
  rewrite Hln, Hlr in Hv. rewrite (Hfill _ _ Hln), (Hfill _ _ Hlr).
  simpl in *.
  repeat (case_decide; simplify_eq/=); try done; naive_solver.
Qed.

Lemma validate_loop (b : gmap string nat) (h : heap) (node : string)
    (ln lr : nat) (n r : object) (v : string) (xs done : list ptr)
    (h0 : heap) :
  b !! node = Some ln → h !! ln = Some n →
  b !! rootNode = Some lr → h !! lr = Some r →
  getIP b h node = Ok v →
  filled_in h v done h0 →
  (∀ p, p ∈ xs → ∃ l, p = Some l ∧ l < length h) →
  ∃ h',
    foldM (λ h1 obj,
             ob ← deref h1 obj;
             if decide (ip ob = "") then
               ip_ ← getIP b h1 node; assign h1 obj (set_ip ip_)
             else Ok h1) h0 xs = Ok h'
    ∧ filled_in h v (done ++ xs) h'.
Proof.
  intros Hn Hln Hr Hlr Hv. revert done h0.
  induction xs as [|p xs IH]; intros done h0 Hfill Hxs; simpl.
  - exists h0. by rewrite app_nil_r.
  - destruct (Hxs p) as (l & -> & Hl); [by left|].
    destruct (lookup_lt_is_Some_2 h l Hl) as [ob Hob].
    pose proof Hfill as [Hlen Hat]. pose proof (Hat _ _ Hob) as Hl0.
    cbn [mbind result_bind deref]. rewrite Hl0. cbn [mbind result_bind].
    rewrite (getIP_filled_in _ _ _ _ _ _ _ _ _ _ Hn Hln Hr Hlr Hv Hfill).
    cbn [mbind result_bind]. unfold assign. rewrite Hl0.
    assert (Hnext : ∀ h1, filled_in h v (done ++ [Some l]) h1 →
              ∃ h', foldM (λ h1 obj,
                ob ← deref h1 obj;
                if decide (ip ob = "") then
                  ip_ ← getIP b h1 node; assign h1 obj (set_ip ip_)
                else Ok h1) h1 xs = Ok h'
                ∧ filled_in h v (done ++ Some l :: xs) h').
    { intros h1 Hh1. destruct (IH (done ++ [Some l]) h1 Hh1) as (h' & E & F).
      - intros p Hp. apply Hxs. by right.
      - exists h'. split; [done|]. by rewrite <- app_assoc in F. }
    match goal with
    | |- context [decide (ip ?a = "")] => destruct (decide (ip a = "")) as [He|He]
    end; cbn [mbind result_bind]; apply Hnext; split.
    + rewrite length_insert. exact Hlen.
    + intros l' ob' Hob'. destruct (decide (l' = l)) as [->|Hne].
      * simplify_eq. rewrite list_lookup_insert_eq by lia. f_equal.
        destruct (decide (Some l ∈ done ∧ ip ob = "")) as [[Hin Hip]|Hnot].
        -- rewrite decide_True by (split; [set_solver | done]). done.
        -- rewrite decide_True by (split; [set_solver | done]). done.
      * rewrite list_lookup_insert_ne by done. rewrite (Hat _ _ Hob').
        f_equal. apply decide_ext. set_solver.
    + done.
    + intros l' ob' Hob'. rewrite (Hat _ _ Hob'). f_equal.
      destruct (decide (l' = l)) as [->|Hne].
      * simplify_eq. repeat case_decide; try done; set_solver.
      * apply decide_ext. set_solver.
Qed.

(** *** Exclusions *)

Lemma updateEntry_keys (data : list string) (k : string) :
  is_Some (list_entry (updateEntry data) !! k) ↔ k ∈ data.
Proof.
  unfold updateEntry. cbn [list_entry].
  rewrite (foldl_insert_is_Some (λ k, k)). split.
  - intros [Hs|(i & Hi & ->)]; [|done].
    rewrite lookup_empty in Hs. by destruct Hs.
  - intros Hk. right. eauto.
Qed.

Lemma Nodes_keys (c : Config) (n : string) :
  n ∈ Nodes c ↔ is_Some (tree c !! n).
Proof.
  unfold Nodes. rewrite merge_sort_Permutation, list_elem_of_fmap. split.
  - intros ([n' l] & -> & Hin%elem_of_map_to_list). eauto.
  - intros [l Hl]. exists (n, l). split; [done|].
    by apply elem_of_map_to_list.
Qed.

Lemma excludes_all_loop (c : Config) (h : heap) (ks acc : list string) :
  (∀ k, k ∈ ks → is_Some (node_of (tree c) h k)) →
  ∃ exc_,
    foldM (λ acc k,
             n ← deref h (tree c !! k);
             if decide (length (exc n) ≠ 0) then Ok (acc ++ exc n)
             else Ok acc) acc ks = Ok exc_
    ∧ ∀ e, e ∈ exc_ ↔
        e ∈ acc ∨ ∃ k ob, k ∈ ks ∧ node_of (tree c) h k = Some ob ∧ e ∈ exc ob.
Proof.
  revert acc. induction ks as [|k ks IH]; intros acc Hks; simpl.
  - exists acc. split; [done|]. intros e. split; [eauto|].
    intros [?|(k & ob & Hk & _)]; [done|]. by apply elem_of_nil in Hk.
  - destruct (Hks k) as [ob Hob]; [by left|].
    unfold node_of in Hob. destruct (tree c !! k) as [l|] eqn:El; [|done].
    simpl in Hob. simpl. rewrite Hob. simpl.
    assert (Hk : node_of (tree c) h k = Some ob).
    { unfold node_of. by rewrite El. }
    assert (Hrest : ∀ k', k' ∈ ks → is_Some (node_of (tree c) h k')).
    { intros k' Hk'. apply Hks. by right. }
    case_decide as Hlen; simpl.
    + destruct (IH (acc ++ exc ob) Hrest) as (exc_ & -> & Hexc).
      exists exc_. split; [done|]. intros e. rewrite Hexc, elem_of_app.
      split.
      * intros [[?|?]|(k' & ob' & Hk' & Hob' & He)]; [by left|..].
        -- right. exists k, ob. split; [by left | done].
        -- right. exists k', ob'. split; [by right | done].
      * intros [?|(k' & ob' & Hk' & Hob' & He)]; [by left; left|].
        apply elem_of_cons in Hk' as [->|Hk'].
        -- simplify_eq. by left; right.
        -- right. eauto.
    + destruct (IH acc Hrest) as (exc_ & -> & Hexc).
      exists exc_. split; [done|]. intros e. rewrite Hexc.
      assert (exc ob = []) as Hnil.
      { destruct (exc ob); [done | simpl in Hlen; lia]. }
      split.
      * intros [?|(k' & ob' & Hk' & Hob' & He)]; [by left|].
        right. exists k', ob'. split; [by right | done].
      * intros [?|(k' & ob' & Hk' & Hob' & He)]; [by left|].
        apply elem_of_cons in Hk' as [->|Hk'].
        -- simplify_eq. rewrite Hnil in He. by apply elem_of_nil in He.
        -- right. eauto.
Qed.

(** C3 (as the code has it): the root-scope exclusion view holds one
    aggregate object, and its excludes field is the root node's own exclude
    list; the union of the exclude lists of all nodes, each entry present
    once it occurs anywhere, is the key set of the map of the list that
    [excludes] without node names returns. *)
Theorem C3_root_exclusions_are_the_roots (c : Config) (h : heap) (lr : nat)
    (r : object) :
  tree c !! rootNode = Some lr → h !! lr = Some r →
  (∀ n l, tree c !! n = Some l → is_Some (h !! l)) →
  (∃ agg,
     addExc c h rootNode
       = Ok (h ++ [agg],
             {| Objects_Parms := Some (Config_Parms c);
                x := [Some (length h)] |})
     ∧ exc agg = exc r ∧ ip agg = ip r
     ∧ ltype agg = ExcRoots ∧ name agg = ExcRoots)
  ∧ (∃ e,
       excludes c h None = Ok e
       ∧ ∀ k, is_Some (list_entry e !! k) ↔
           ∃ n ob, node_of (tree c) h n = Some ob ∧ k ∈ exc ob).
Proof.
  intros Hr Hlr Hok. split.
  - unfold addExc, getIP. rewrite Hr. simpl. rewrite Hlr. simpl.
    assert (Hip : (if decide (ip r = "") then Ok (ip r) else Ok (ip r))
                  = Ok (ip r)) by (by case_decide).
    rewrite Hip. simpl. eexists. split; [reflexivity|]. done.
  - unfold excludes.
    destruct (excludes_all_loop c h (Nodes c) []) as (exc_ & -> & Hexc).
    { intros k [l Hl]%Nodes_keys. unfold node_of. rewrite Hl. simpl.
      by eapply Hok. }
    simpl. eexists. split; [reflexivity|]. intros k.
    rewrite updateEntry_keys, Hexc. split.
    + intros [Hnil|(n & ob & _ & Hn & Hk)]; [by apply elem_of_nil in Hnil|].
      eauto.
    + intros (n & ob & Hn & Hk). right. exists n, ob.
      split; [|done]. apply Nodes_keys. unfold node_of in Hn.
      destruct (tree c !! n); [eauto | done].
Qed.

(** *** Further properties of the exclusion and inclusion views *)

(** [Nodes] lists the node names of the tree in lexicographic order, each
    once, and no other name. *)
Theorem Nodes_sorted_keys (c : Config) :
  Sorted String.le (Nodes c)
  ∧ NoDup (Nodes c)
  ∧ (∀ n, n ∈ Nodes c ↔ is_Some (tree c !! n))
  ∧ length (Nodes c) = size (tree c).
Proof.
  split; [|split; [|split]].
  - apply Sorted_merge_sort, _.
  - unfold Nodes. rewrite merge_sort_Permutation.
    apply NoDup_fst_map_to_list.
  - apply Nodes_keys.
  - unfold Nodes. rewrite merge_sort_Permutation, length_fmap.
    apply length_map_to_list.
Qed.

Lemma deref_Ok (h : heap) (p : ptr) (ob : object) :
  deref h p = Ok ob ↔ ∃ l, p = Some l ∧ h !! l = Some ob.
Proof.
  unfold deref. destruct p as [l|]; [|by split; [|intros (? & ? & ?)]].
  destruct (h !! l) as [ob'|] eqn:E; (split; [intros [= <-]; eauto|]).
  - intros (l' & [= <-] & Hl'). congruence.
  - intros (l' & [= <-] & Hl'). congruence.
Qed.

Lemma deref_faults (h : heap) (p : ptr) (q : panic) :
  deref h p = Panic q → q = NilDeref.
Proof.
  unfold deref. destruct p as [l|]; [|by intros [= <-]].
  destruct (h !! l); [done | by intros [= <-]].
Qed.

(** On a store without dangling node pointers, [getIP] faults exactly when
    the node is not in the tree, or its ip is empty and the root node is not
    in the tree; the fault is a nil dereference.  A node with an ip of its
    own is answered without looking at the root. *)
Theorem getIP_faults_without_node_or_root (b : gmap string nat) (h : heap)
    (node : string) :
  (∀ n l, b !! n = Some l → is_Some (h !! l)) →
  (getIP b h node = Panic NilDeref
   ↔ b !! node = None
     ∨ ∃ n, node_of b h node = Some n ∧ ip n = "" ∧ b !! rootNode = None)
  ∧ (∀ q, getIP b h node = Panic q → q = NilDeref)
  ∧ (∀ n, node_of b h node = Some n → ip n ≠ "" →
       getIP b h node = Ok (ip n)).
Proof.
  intros Hok. unfold getIP, node_of.
  destruct (b !! node) as [ln|] eqn:En; simpl.
  - destruct (Hok _ _ En) as [n Hn]. rewrite Hn. simpl.
    destruct (decide (ip n = "")) as [Hip|Hip].
    + destruct (b !! rootNode) as [lr|] eqn:Er; simpl.
      * destruct (Hok _ _ Er) as [r Hr]. rewrite Hr. simpl.
        split; [|split].
        -- split; [done|]. intros [?|(n' & _ & _ & ?)]; done.
        -- by intros q [=].
        -- intros n' [= <-] Hne. done.
      * split; [|split].
        -- split; [|done]. intros _. right. eauto.
        -- by intros q [= <-].
        -- intros n' [= <-] Hne. done.
    + split; [|split].
      * split; [done|]. intros [?|(n' & [= <-] & ? & _)]; done.
      * by intros q [=].
      * by intros n' [= <-] _.
  - split; [|split].
    + split; [by left | done].
    + by intros q [= <-].
    + intros n' [=].
Qed.

Lemma excludes_named_loop (c : Config) (h : heap) (ns acc : list string) :
  (∀ n, n ∈ ns → is_Some (node_of (tree c) h n)) →
  ∃ exc_,
    foldM (λ acc node, n ← deref h (tree c !! node); Ok (acc ++ exc n))
          acc ns = Ok exc_
    ∧ ∀ e, e ∈ exc_ ↔
        e ∈ acc ∨ ∃ n ob, n ∈ ns ∧ node_of (tree c) h n = Some ob ∧ e ∈ exc ob.
Proof.
  revert acc. induction ns as [|k ks IH]; intros acc Hks; simpl.
  - exists acc. split; [done|]. intros e. split; [eauto|].
    intros [?|(k & ob & Hk & _)]; [done|]. by apply elem_of_nil in Hk.
  - destruct (Hks k) as [ob Hob]; [by left|].
    assert (Hd : deref h (tree c !! k) = Ok ob).
    { apply deref_Ok. unfold node_of in Hob.
      destruct (tree c !! k) as [l|]; [eauto | done]. }
    rewrite Hd. simpl.
    destruct (IH (acc ++ exc ob)) as (exc_ & -> & Hexc).
    { intros k' Hk'. apply Hks. by right. }
    exists exc_. split; [done|]. intros e. rewrite Hexc, elem_of_app.
    split.
    + intros [[?|?]|(k' & ob' & Hk' & Hob' & He)]; [by left|..].
      * right. exists k, ob. split; [by left | done].
      * right. exists k', ob'. split; [by right | done].
    + intros [?|(k' & ob' & Hk' & Hob' & He)]; [by left; left|].
      apply elem_of_cons in Hk' as [->|Hk'].
      * simplify_eq. by left; right.
      * right. eauto.
Qed.

(** [excludes] with node names, all of them in the tree, returns a list
    whose map has as keys the entries excluded by one of the named nodes:
    the union of their exclude lists.  Without names it is an empty slice,
    not nil, and the map is empty.  The list is the one [updateEntry]
    makes, without lock. *)
Theorem excludes_of_named_nodes (c : Config) (h : heap) (ns : list string) :
  (∀ n, n ∈ ns → is_Some (node_of (tree c) h n)) →
  (∃ e, excludes c h (Some ns) = Ok e
        ∧ RWMutex e = None
        ∧ ∀ k, is_Some (list_entry e !! k) ↔
            ∃ n ob, n ∈ ns ∧ node_of (tree c) h n = Some ob ∧ k ∈ exc ob)
  ∧ excludes c h (Some []) = Ok {| RWMutex := None; list_entry := ∅ |}.
Proof.
  intros Hns. split; [|done]. unfold excludes.
  destruct (excludes_named_loop c h ns [] Hns) as (exc_ & -> & Hexc).
  simpl. eexists. split; [reflexivity|]. split; [done|]. intros k.
  rewrite updateEntry_keys, Hexc. split.
  - intros [Hnil|?]; [by apply elem_of_nil in Hnil | done].
  - eauto.
Qed.

(** [excludes] faults with a nil dereference as soon as one of the names it
    is given is not in the tree, wherever the name stands among the
    others. *)
Theorem excludes_faults_on_missing_node (c : Config) (h : heap)
    (ns : list string) (n : string) :
  n ∈ ns → tree c !! n = None →
  excludes c h (Some ns) = Panic NilDeref.
Proof.
  intros Hin Hn. unfold excludes.
  assert (Hloop : ∀ acc,
            foldM (λ acc node, n ← deref h (tree c !! node); Ok (acc ++ exc n))
                  acc ns = Panic NilDeref).
  { induction ns as [|k ks IH]; intros acc; [by apply elem_of_nil in Hin|].
    simpl. destruct (deref h (tree c !! k)) as [ob|q] eqn:Ed; simpl.
    - apply elem_of_cons in Hin as [->|Hin]; [|by apply IH].
      rewrite Hn in Ed. done.
    - by rewrite (deref_faults _ _ _ Ed). }
  by rewrite Hloop.
Qed.

(** For a node of the tree whose ip resolves, [addExc] returns a view of one
    new object, stored behind the objects of the store, which are left as
    they were: it carries the node's own exclude list, the resolved ip, and
    the label of the scope as its type and name (empty for a node other
    than "domains", "hosts" and the root). *)
Theorem addExc_one_new_aggregate (c : Config) (h : heap) (node : string)
    (n : object) (v : string) :
  node_of (tree c) h node = Some n →
  getIP (tree c) h node = Ok v →
  ∃ agg,
    addExc c h node
      = Ok (h ++ [agg],
            {| Objects_Parms := Some (Config_Parms c);
               x := [Some (length h)] |})
    ∧ exc agg = exc n ∧ ip agg = v ∧ inc agg = []
    ∧ x (objects agg) = []
    ∧ name agg = ltype agg
    ∧ nType agg = typeStr (ltype agg)
    ∧ ltype agg = (if decide (node = domains) then ExcDomns
                   else if decide (node = hosts) then ExcHosts
                   else if decide (node = rootNode) then ExcRoots
                   else "").
Proof.
  intros Hn Hv. unfold addExc. rewrite Hv.
  assert (Hd : deref h (tree c !! node) = Ok n).
  { apply deref_Ok. unfold node_of in Hn.
    destruct (tree c !! node) as [l|]; [eauto | done]. }
  rewrite Hd. simpl. eexists. split; [reflexivity|]. done.
Qed.

(** A name that is not in the tree makes every view fault with a nil
    dereference, whatever the store holds: [getIP], [validate], [addExc] and
    [addInc] all read the node the name stands for without a check. *)
Theorem views_fault_on_missing_node (c : Config) (h : heap) (node : string) :
  tree c !! node = None →
  getIP (tree c) h node = Panic NilDeref
  ∧ validate (tree c) h node = Panic NilDeref
  ∧ addExc c h node = Panic NilDeref
  ∧ addInc c h node = Panic NilDeref.
Proof.
  intros Hn. unfold getIP, validate, addExc, addInc. rewrite Hn. done.
Qed.

(** For a node of the tree, [addInc] returns nil, and leaves the store as it
    is, exactly when the node has no includes; otherwise (its ip resolving)
    it returns one new object stored behind the others, with the node's
    include list and a name that shows its length. *)
Theorem addInc_nil_iff_no_includes (c : Config) (h : heap) (node : string)
    (n : object) (v : string) :
  node_of (tree c) h node = Some n →
  getIP (tree c) h node = Ok v →
  (inc n = [] ↔ addInc c h node = Ok (h, None))
  ∧ (inc n ≠ [] →
       ∃ agg, addInc c h node = Ok (h ++ [agg], Some (length h))
         ∧ inc agg = inc n ∧ ip agg = v ∧ exc agg = []
         ∧ name agg = "includes.[" +:+ pretty (length (inc n)) +:+ "]"
         ∧ desc agg = ltype agg +:+ " blacklist content"
         ∧ ltype agg = (if decide (node = domains) then typeInt preDomn
                        else if decide (node = hosts) then typeInt preHost
                        else "")).
Proof.
  intros Hn Hv. unfold addInc. rewrite Hv.
  assert (Hd : deref h (tree c !! node) = Ok n).
  { apply deref_Ok. unfold node_of in Hn.
    destruct (tree c !! node) as [l|]; [eauto | done]. }
  rewrite Hd. simpl. destruct (inc n) as [|i is_] eqn:Ei.
  - split; [done|]. intros Hne. done.
  - rewrite decide_True by (simpl; lia). simpl. split.
    + split; [done|]. intros [=].
    + intros _. eexists. split; [reflexivity|]. done.
Qed.

Lemma set_ip_same_but_ip (v : string) (ob : object) :
  same_but_ip ob (set_ip v ob).
Proof. by repeat split. Qed.

Lemma same_but_ip_refl (ob : object) : same_but_ip ob ob.
Proof. by repeat split. Qed.

(** C8: for a tree holding node N and the root, [validate] returns N's source
    list as it was (same objects, same number, same order); an object of the
    list whose ip is empty gets N's resolved ip, an ip that is set is kept,
    every other field of every object is unchanged, and objects outside the
    list are untouched. *)
Theorem C8_validate_fills_only_empty_ip (b : gmap string nat) (h : heap)
    (node : string) (ln lr : nat) (n r : object) :
  b !! node = Some ln → h !! ln = Some n →
  b !! rootNode = Some lr → h !! lr = Some r →
  (∀ p, p ∈ x (objects n) → ∃ l, p = Some l ∧ l < length h) →
  ∃ h' v,
    getIP b h node = Ok v
    ∧ validate b h node = Ok (h', objects n)
    ∧ length h' = length h
    ∧ (∀ l ob, h !! l = Some ob →
         ∃ ob', h' !! l = Some ob' ∧ same_but_ip ob ob'
           ∧ (Some l ∈ x (objects n) → ip ob = "" → ip ob' = v)
           ∧ (ip ob ≠ "" → ip ob' = ip ob)
           ∧ (Some l ∉ x (objects n) → ob' = ob)).
Proof.
  intros Hn Hln Hr Hlr Hxs.
  assert (∃ v, getIP b h node = Ok v) as [v Hv].
  { unfold getIP. rewrite Hn, Hr. simpl. rewrite Hln, Hlr. simpl.
    case_decide; eauto. }
  destruct (validate_loop b h node ln lr n r v (x (objects n)) [] h
              Hn Hln Hr Hlr Hv) as (h' & Hloop & Hlen & Hat); [|done|].
  { split; [done|]. intros l ob Hob. rewrite decide_False; [done|].
    intros [Hin _]. by apply elem_of_nil in Hin. }
  exists h', v. split; [done|]. split; [|split; [done|]].
  - unfold validate. rewrite Hn. simpl. rewrite Hln. simpl.
    rewrite Hloop. simpl. rewrite (Hat _ _ Hln). simpl.
    by case_decide.
  - intros l ob Hob. rewrite (Hat _ _ Hob). simpl.
    case_decide as Hd.
    + destruct Hd as [Hin Hip]. eexists. split; [done|].
      split; [apply set_ip_same_but_ip|]. by repeat split.
    + eexists. split; [done|]. split; [apply same_but_ip_refl|].
      repeat split; try done. intros Hin Hip. by destruct Hd.
Qed.

(** *** Resolving twice, and stores that differ in ips only *)

Lemma validate_resolves (b : gmap string nat) (h : heap) (node : string)
    (ln lr : nat) (n r : object) :
  b !! node = Some ln → h !! ln = Some n →
  b !! rootNode = Some lr → h !! lr = Some r →
  (∀ p, p ∈ x (objects n) → ∃ l, p = Some l ∧ l < length h) →
  ∃ h' v,
    getIP b h node = Ok v
    ∧ validate b h node = Ok (h', objects n)
    ∧ filled_in h v (x (objects n)) h'.
Proof.
  intros Hn Hln Hr Hlr Hxs.
  assert (∃ v, getIP b h node = Ok v) as [v Hv].
  { unfold getIP. rewrite Hn, Hr. simpl. rewrite Hln, Hlr. simpl.
    case_decide; eauto. }
  destruct (validate_loop b h node ln lr n r v (x (objects n)) [] h
              Hn Hln Hr Hlr Hv) as (h' & Hloop & Hlen & Hat); [|done|].
  { split; [done|]. intros l ob Hob. rewrite decide_False; [done|].
    intros [Hin _]. by apply elem_of_nil in Hin. }
  exists h', v. split; [done|]. split; [|by split].
  unfold validate. rewrite Hn. simpl. rewrite Hln. simpl.
  rewrite Hloop. simpl. rewrite (Hat _ _ Hln). simpl.
  by case_decide.
Qed.

Lemma filled_in_resolved (h h' : heap) (v : string) (done : list ptr) :
  filled_in h v done h' → resolved_store h h'.
Proof.
  intros [Hlen Hat]. apply Forall2_same_length_lookup. split; [done|].
  intros l ob ob' Hob Hob'. rewrite (Hat _ _ Hob) in Hob'.
  case_decide; simplify_eq.
  - apply set_ip_same_but_ip.
  - apply same_but_ip_refl.
Qed.

Lemma set_ip_twice (v : string) (ob : object) :
  set_ip v (set_ip v ob) = set_ip v ob.
Proof. done. Qed.

(** [validate] is idempotent: resolving a node's sources a second time
    returns the same list and leaves the store of the first resolution as
    it is. *)
Theorem validate_twice_is_validate_once (b : gmap string nat) (h h1 : heap)
    (node : string) (ln lr : nat) (n r : object) (objs : Objects) :
  b !! node = Some ln → h !! ln = Some n →
  b !! rootNode = Some lr → h !! lr = Some r →
  (∀ p, p ∈ x (objects n) → ∃ l, p = Some l ∧ l < length h) →
  validate b h node = Ok (h1, objs) →
  validate b h1 node = Ok (h1, objs).
Proof.
  intros Hn Hln Hr Hlr Hxs Hval.
  destruct (validate_resolves b h node ln lr n r Hn Hln Hr Hlr Hxs)
    as (h' & v & Hv & Hval' & Hfill).
  rewrite Hval' in Hval. simplify_eq.
  pose proof Hfill as [Hlen Hat].
  pose proof (Hat _ _ Hln) as Hln1. pose proof (Hat _ _ Hlr) as Hlr1.
  set (n1 := if decide (Some ln ∈ x (objects n) ∧ ip n = "")
             then set_ip v n else n) in *.
  assert (Hobj : objects n1 = objects n).
  { unfold n1. by destruct (decide (Some ln ∈ x (objects n) ∧ ip n = "")). }
  destruct (validate_resolves b h1 node ln lr n1 _ Hn Hln1 Hr Hlr1)
    as (h2 & v2 & Hv2 & Hval2 & [Hlen2 Hat2]).
  { rewrite Hobj, Hlen. apply Hxs. }
  rewrite (getIP_filled_in _ _ _ _ _ _ _ _ _ _ Hn Hln Hr Hlr Hv Hfill) in Hv2.
  simplify_eq. rewrite Hval2, Hobj. do 2 f_equal.
  apply list_eq. intros l.
  destruct (h1 !! l) as [ob1|] eqn:E1.
  - rewrite (Hat2 _ _ E1). f_equal.
    destruct (decide (Some l ∈ x (objects n1) ∧ ip ob1 = ""))
      as [[Hin Hip1]|Hd]; [|done].
    rewrite Hobj in Hin.
    destruct (lookup_lt_is_Some_2 h l) as [ob Hob].
    { rewrite <- Hlen. by eapply lookup_lt_Some. }
    rewrite (Hat _ _ Hob) in E1.
    destruct (decide (Some l ∈ x (objects n) ∧ ip ob = "")) as [Hd|Hd];
      simplify_eq.
    + apply set_ip_twice.
    + by destruct Hd.
  - apply lookup_ge_None. rewrite Hlen2. by apply lookup_ge_None.
Qed.

Lemma resolved_store_lookup (h h' : heap) (l : nat) (ob : object) :
  resolved_store h h' → h !! l = Some ob →
  ∃ ob', h' !! l = Some ob' ∧ same_but_ip ob ob'.
Proof. intros Hres Hob. by eapply Forall2_lookup_l. Qed.

Lemma resolved_store_refl (h : heap) : resolved_store h h.
Proof. apply Forall_Forall2_diag, Forall_forall. intros. apply same_but_ip_refl. Qed.

Lemma same_but_ip_trans (a b c : object) :
  same_but_ip a b → same_but_ip b c → same_but_ip a c.
Proof. unfold same_but_ip. intros Hab Hbc. destruct_and!. repeat split; congruence. Qed.

Lemma resolved_store_trans (h1 h2 h3 : heap) :
  resolved_store h1 h2 → resolved_store h2 h3 → resolved_store h1 h3.
Proof.
  intros H12 H23. eapply Forall2_trans; [|done..].
  intros a b c. apply same_but_ip_trans.
Qed.

Lemma has_ltype_resolved (h h' : heap) (lt : string) (p : ptr) :
  resolved_store h h' → has_ltype h' lt p = has_ltype h lt p.
Proof.
  intros Hres. unfold has_ltype, deref. destruct p as [l|]; [|done].
  destruct (h !! l) as [ob|] eqn:E.
  - destruct (resolved_store_lookup _ _ _ _ Hres E) as (ob' & -> & Hsame).
    unfold same_but_ip in Hsame. destruct_and!.
    apply bool_decide_ext. split; congruence.
  - assert (h' !! l = None) as ->; [|done].
    apply lookup_ge_None. rewrite <- (Forall2_length _ _ _ Hres).
    by apply lookup_ge_None.
Qed.

(** *** Preconfigured inclusions *)

Lemma addInc_includes (c : Config) (h : heap) (node : string) (ln : nat)
    (n : object) :
  node = domains ∨ node = hosts →
  tree c !! node = Some ln → h !! ln = Some n →
  (inc n = [] → addInc c h node = Ok (h, None))
  ∧ (inc n ≠ [] → ∀ v, getIP (tree c) h node = Ok v →
       ∃ agg, addInc c h node = Ok (h ++ [agg], Some (length h))
         ∧ inc agg = inc n
         ∧ name agg = "includes.[" +:+ pretty (length (inc n)) +:+ "]"
         ∧ ltype agg = typeInt (if decide (node = domains) then preDomn
                                else preHost)
         ∧ ip agg = v).
Proof.
  intros Hnode Hn Hln. unfold addInc. rewrite Hn. simpl. rewrite Hln. simpl.
  split.
  - intros ->. simpl. done.
  - intros Hinc v Hv. rewrite decide_True.
    + rewrite Hv. simpl. eexists. split; [reflexivity|]. simpl.
      repeat split. destruct Hnode as [->| ->]; done.
    + destruct (inc n); [done | simpl; lia].
Qed.

Section GetAll.
Context `{!Methods}.

Lemma GetAll_ltype_no_includes (c : Config) (h : heap) (ln : nat) (n : object)
    (newHosts : bool) (view : Objects) :
  tree c !! domains = Some ln → h !! ln = Some n → inc n = [] →
  GetAll_ltype c domains (h, true, newHosts, view) PreDomns
  = Ok (h, false, newHosts,
        {| Objects_Parms := Objects_Parms view; x := x view ++ [None] |}).
Proof.
  intros Hn Hln Hinc. unfold GetAll_ltype.
  rewrite decide_True by done. rewrite bool_decide_eq_true_2 by done.
  simpl.
  destruct (addInc_includes c h domains ln n) as [-> _]; by eauto.
Qed.

(** C5 (where the code departs from it): for a "domains" node without
    includes, the preconfigured-domain view that [GetAll] returns is not
    empty: it holds the nil pointer [addInc] returned, since [GetAll]
    appends the result of [addInc] without looking at it. *)
Theorem C5_GetAll_keeps_nil_for_no_includes :
  GetAll bare_nodes bare_store (Some [PreDomns])
  = Ok (bare_store, {| Objects_Parms := Some test_Parms; x := [None] |}).
Proof.
  unfold GetAll. cbn [Config_Parms bare_nodes test_Parms Parms_Nodes foldM].
  rewrite (GetAll_ltype_no_includes bare_nodes bare_store 0 newObject);
    [|done..].
  done.
Qed.

(** *** Source views keep the order of declaration *)

Lemma bind_Ok_r {A} (m : result A) : m ≫= Ok = m.
Proof. by destruct m. Qed.

Lemma bind_Ok_l {A B} (a : A) (f : A → result B) : Ok a ≫= f = f a.
Proof. done. Qed.

Lemma foldM_cons {A B} (f : A → B → result A) (a : A) (b : B) (l : list B) :
  foldM f a (b :: l) = f a b ≫= λ a', foldM f a' l.
Proof. done. Qed.

Lemma foldM_nil {A B} (f : A → B → result A) (a : A) :
  foldM f a [] = Ok a.
Proof. done. Qed.

Lemma GetAll_filter_loop (h : heap) (lt : string) (xs acc : list ptr) :
  (∀ p, p ∈ xs → ∃ l, p = Some l ∧ l < length h) →
  foldM (λ acc p,
           ob ← deref h p;
           if decide (ltype ob = lt) then Ok (acc ++ [p]) else Ok acc)
        acc xs
  = Ok (acc ++ filter (λ p, has_ltype h lt p = true) xs).
Proof.
  revert acc. induction xs as [|p xs IH]; intros acc Hxs; cbn [foldM].
  - by rewrite filter_nil, app_nil_r.
  - destruct (Hxs p) as (l & -> & Hl); [by left|].
    destruct (lookup_lt_is_Some_2 h l Hl) as [ob Hob].
    assert (Hrest : ∀ p, p ∈ xs → ∃ l, p = Some l ∧ l < length h).
    { intros p Hp. apply Hxs. by right. }
    assert (Hhas : has_ltype h lt (Some l) = bool_decide (ltype ob = lt)).
    { unfold has_ltype. simpl. by rewrite Hob. }
    assert (Hderef : deref h (Some l) = Ok ob) by (simpl; by rewrite Hob).
    rewrite Hderef. cbn [mbind result_bind].
    destruct (decide (ltype ob = lt)) as [Hlt|Hlt].
    + rewrite filter_cons_True
        by (by rewrite Hhas, bool_decide_eq_true_2).
      cbn [mbind result_bind]. rewrite IH by done. by rewrite <- app_assoc.
    + rewrite filter_cons_False
        by (by rewrite Hhas, bool_decide_eq_false_2).
      cbn [mbind result_bind]. by apply IH.
Qed.

Lemma GetAll_ltype_sources (c : Config) (h : heap) (node lt : string)
    (ln lr : nat) (n r : object) (newDomns newHosts : bool) (view : Objects) :
  lt ≠ PreDomns → lt ≠ PreHosts →
  tree c !! node = Some ln → h !! ln = Some n →
  tree c !! rootNode = Some lr → h !! lr = Some r →
  (∀ p, p ∈ x (objects n) → ∃ l, p = Some l ∧ l < length h) →
  ∃ h',
    GetAll_ltype c node (h, newDomns, newHosts, view) lt
    = Ok (h', newDomns, newHosts,
          {| Objects_Parms := Objects_Parms view;
             x := x view
                  ++ filter (λ p, has_ltype h lt p = true) (x (objects n)) |})
    ∧ resolved_store h h'.
Proof.
  intros Hd Hh Hn Hln Hr Hlr Hxs. unfold GetAll_ltype.
  rewrite !decide_False by done.
  destruct (validate_resolves (tree c) h node ln lr n r Hn Hln Hr Hlr Hxs)
    as (h' & v & _ & -> & Hfill).
  pose proof (filled_in_resolved _ _ _ _ Hfill) as Hres.
  simpl. rewrite GetAll_filter_loop.
  - simpl. exists h'. split; [|done].
    assert (Hf : filter (λ p, has_ltype h' lt p = true) (x (objects n))
                 = filter (λ p, has_ltype h lt p = true) (x (objects n))).
    { apply list_filter_iff. intros p.
      by rewrite (has_ltype_resolved h h'). }
    by rewrite Hf.
  - intros p Hp. rewrite <- (Forall2_length _ _ _ Hres). by apply Hxs.
Qed.

Lemma GetAll_nodes_loop (c : Config) (h h0 : heap) (lt : string) (lr : nat)
    (nds : list string) (newDomns newHosts : bool) (view : Objects) :
  lt ≠ PreDomns → lt ≠ PreHosts →
  tree c !! rootNode = Some lr → is_Some (h !! lr) →
  (∀ node, node ∈ nds → is_Some (node_of (tree c) h node)) →
  store_ok h →
  resolved_store h h0 →
  ∃ h',
    foldM (λ (st : GetAll_state) node, foldM (GetAll_ltype c node) st [lt])
          (h0, newDomns, newHosts, view) nds
    = Ok (h', newDomns, newHosts,
          {| Objects_Parms := Objects_Parms view;
             x := x view
                  ++ concat ((λ node,
                                filter (λ p, has_ltype h lt p = true)
                                       (node_sources (tree c) h node))
                             <$> nds) |})
    ∧ resolved_store h h'.
Proof.
  intros Hd Hh Hr [r Hlr] Hnds Hok. revert h0 view.
  induction nds as [|node nds IH]; intros h0 view Hres.
  - simpl. exists h0. split; [|done]. rewrite app_nil_r. by destruct view.
  - rewrite foldM_cons. cbv beta.
    rewrite (foldM_cons (GetAll_ltype c node)), fmap_cons. cbn [concat].
    destruct (Hnds node) as [n Hnode]; [by left|].
    unfold node_sources at 1. rewrite Hnode. cbn [from_option].
    unfold node_of in Hnode.
    destruct (tree c !! node) as [ln|] eqn:Hn; [|done]. simpl in Hnode.
    destruct (resolved_store_lookup _ _ _ _ Hres Hnode) as (n0 & Hln0 & Hsn).
    destruct (resolved_store_lookup _ _ _ _ Hres Hlr) as (r0 & Hlr0 & _).
    assert (Hobj : objects n0 = objects n).
    { unfold same_but_ip in Hsn. by destruct_and!. }
    destruct (GetAll_ltype_sources c h0 node lt ln lr n0 r0 newDomns newHosts
                view Hd Hh Hn Hln0 Hr Hlr0) as (h1 & -> & Hres1).
    { rewrite Hobj. intros p Hp.
      rewrite <- (Forall2_length _ _ _ Hres). by eapply Hok. }
    rewrite bind_Ok_l, foldM_nil, bind_Ok_l.
    assert (Hrest : ∀ node', node' ∈ nds →
                      is_Some (node_of (tree c) h node')).
    { intros node' Hin. apply Hnds. by right. }
    destruct (IH Hrest
                h1 {| Objects_Parms := Objects_Parms view;
                      x := x view
                           ++ filter (λ p, has_ltype h0 lt p = true)
                                     (x (objects n0)) |})
      as (h' & -> & Hres').
    { by eapply resolved_store_trans. }
    exists h'. split; [|done]. simpl.
    assert (Hf : filter (λ p, has_ltype h0 lt p = true) (x (objects n0))
                 = filter (λ p, has_ltype h lt p = true) (x (objects n))).
    { rewrite Hobj. apply list_filter_iff. intros p.
      by rewrite (has_ltype_resolved h h0). }
    by rewrite Hf, <- app_assoc.
Qed.

(** For a leaf type other than the two preconfigured ones, [GetAll] returns
    the sources of that type node by node in the order of [Parms.Nodes],
    and within a node in the order in which they were declared; on the way
    the store changes in ips only. *)
Theorem GetAll_sources_in_declaration_order (c : Config) (h : heap)
    (lt : string) (lr : nat) :
  lt ≠ PreDomns → lt ≠ PreHosts →
  tree c !! rootNode = Some lr → is_Some (h !! lr) →
  (∀ node, node ∈ Parms_Nodes (Config_Parms c) →
     is_Some (node_of (tree c) h node)) →
  store_ok h →
  ∃ h',
    GetAll c h (Some [lt])
    = Ok (h',
          {| Objects_Parms := Some (Config_Parms c);
             x := concat ((λ node,
                             filter (λ p, has_ltype h lt p = true)
                                    (node_sources (tree c) h node))
                          <$> Parms_Nodes (Config_Parms c)) |})
    ∧ resolved_store h h'.
Proof.
  intros Hd Hh Hr Hlr Hnds Hok. unfold GetAll.
  destruct (GetAll_nodes_loop c h h lt lr (Parms_Nodes (Config_Parms c))
              true true {| Objects_Parms := Some (Config_Parms c); x := [] |}
              Hd Hh Hr Hlr Hnds Hok (resolved_store_refl h))
    as (h' & -> & Hres).
  simpl. eauto.
Qed.

(** *** Asking twice for a preconfigured view *)

Lemma foldM_ext {A B} (f g : A → B → result A) (a : A) (l : list B) :
  (∀ a b, f a b = g a b) → foldM f a l = foldM g a l.
Proof.
  intros Hfg. revert a. induction l as [|b l IH]; intros a; [done|].
  rewrite !foldM_cons, Hfg. destruct (g a b); [apply IH | done].
Qed.

Lemma GetAll_ltype_again (c : Config) (node lt : string) (st : GetAll_state) :
  lt = PreDomns ∨ lt = PreHosts →
  GetAll_ltype c node st lt ≫= (λ st', GetAll_ltype c node st' lt)
  = GetAll_ltype c node st lt.
Proof.
  destruct st as [[[h newDomns] newHosts] view].
  intros [-> | ->]; unfold GetAll_ltype.
  - rewrite !decide_True by done.
    destruct newDomns, (bool_decide (node = domains)); simpl; try done.
    destruct (addInc c h node) as [[h' p]|]; simpl; [|done].
    by repeat case_decide.
  - rewrite !(decide_False (P := PreHosts = PreDomns)) by done.
    rewrite !decide_True by done.
    destruct newHosts, (bool_decide (node = hosts)); simpl; try done.
    destruct (addInc c h node) as [[h' p]|]; simpl; [|done].
    by repeat case_decide.
Qed.

(** Naming a preconfigured leaf type twice in one call of [GetAll] changes
    nothing: the flags [newDomns] and [newHosts] let the aggregate in once,
    and a fault of the first request is the fault of the call. *)
Theorem GetAll_preconfigured_type_counts_once (c : Config) (h : heap)
    (lt : string) (lts : list string) :
  lt = PreDomns ∨ lt = PreHosts →
  GetAll c h (Some (lt :: lt :: lts)) = GetAll c h (Some (lt :: lts)).
Proof.
  intros Hlt. unfold GetAll. f_equal. apply foldM_ext. intros st node.
  rewrite !foldM_cons.
  rewrite <- (GetAll_ltype_again c node lt st Hlt) at 2.
  destruct (GetAll_ltype c node st lt) as [st1|]; [|done]. simpl.
  destruct (GetAll_ltype c node st1 lt); done.
Qed.

End GetAll.

End views.

(** ** The parser *)

Section parser.
Context `{Helpers} {L : Type} `{regx.Obj L}.

Lemma assign_Ok (h h' : heap) (p : ptr) (f : object → object) :
  assign h p f = Ok h' →
  ∃ l ob, p = Some l ∧ h !! l = Some ob ∧ h' = <[l := f ob]> h.
Proof.
  unfold assign. destruct p as [l|]; [|done].
  destruct (h !! l) as [ob|] eqn:E; [|done].
  intros [= <-]. eauto.
Qed.

Lemma assign_length (h h' : heap) (p : ptr) (f : object → object) :
  assign h p f = Ok h' → length h' = length h.
Proof.
  intros (l & ob & -> & _ & ->)%assign_Ok. by rewrite length_insert.
Qed.

Lemma assign_some (h : heap) (l : nat) (ob : object) (f : object → object) :
  h !! l = Some ob → assign h (Some l) f = Ok (<[l := f ob]> h).
Proof. intros E. unfold assign. by rewrite E. Qed.

Lemma bind_Ok {A B} (m : result A) (f : A → result B) (b : B) :
  m ≫= f = Ok b → ∃ a, m = Ok a ∧ f a = Ok b.
Proof. destruct m as [a|]; [eauto | done]. Qed.

(** Splits a hypothesis on a shape into the matches it stands for. *)
Ltac shape_cases Hs :=
  unfold shape_of in Hs;
  repeat match type of Hs with
         | context [match ?e with _ => _ end] => destruct e eqn:?
         end;
  try discriminate Hs; simplify_eq.

Lemma dispatch_SRbrc (st : scanner) (l : L) :
  shape_of l = SRbrc →
  dispatch st l =
    if decide (1 < length (nodes st)) then
      let nodes' := take (length (nodes st) - 1) (nodes st) in
      match nodes' !! (length nodes' - 1) with
      | Some top =>
          Ok {| c_tree := c_tree st; mem := mem st; tnode := top;
                leaf := leaf st; nodes := nodes'; o := o st |}
      | None => Panic IndexOutOfRange
      end
    else Ok st.
Proof.
  intros Hs. shape_cases Hs. unfold dispatch, dispatch_tail.
  repeat match goal with E : _ = _ |- _ => rewrite E end. done.
Qed.

Lemma dispatch_SNode (st : scanner) (l : L) (n : string) :
  shape_of l = SNode n →
  dispatch st l =
    Ok {| c_tree := <[n := length (mem st)]> (c_tree st);
          mem := mem st ++ [newObject]; tnode := n; leaf := leaf st;
          nodes := nodes st ++ [n]; o := o st |}.
Proof.
  intros Hs. shape_cases Hs. unfold dispatch.
  repeat match goal with E : _ = _ |- _ => rewrite E end. done.
Qed.

(** C7: a close-brace line never faults: with more than one entry on the
    context stack the last entry is popped and the current node becomes the
    new top; with an empty or one-entry stack the line changes nothing, so
    a non-empty stack stays non-empty and the scan goes on. *)
Theorem C7_close_brace_never_faults (st : scanner) (l : L) :
  shape_of l = SRbrc →
  ∃ st', dispatch st l = Ok st'
    ∧ c_tree st' = c_tree st ∧ mem st' = mem st
    ∧ leaf st' = leaf st ∧ o st' = o st
    ∧ (1 < length (nodes st) →
         (∃ popped, nodes st = nodes st' ++ [popped])
         ∧ last (nodes st') = Some (tnode st'))
    ∧ (length (nodes st) ≤ 1 → st' = st)
    ∧ (1 ≤ length (nodes st) → 1 ≤ length (nodes st')).
Proof.
  intros Hs. rewrite (dispatch_SRbrc _ _ Hs).
  destruct (decide (1 < length (nodes st))) as [Hlen|Hlen].
  - destruct (nodes st) as [|n0 ns] eqn:En using rev_ind; [simpl in Hlen; lia|].
    clear IHns. rewrite length_app in *. simpl in *.
    replace (length ns + 1 - 1) with (length ns) by lia.
    rewrite take_app_length. rewrite Nat.sub_1_r, <- last_lookup.
    destruct (last ns) as [top|] eqn:Elast.
    + eexists. split; [reflexivity|]. simpl.
      repeat split; eauto; try lia.
    + apply last_None in Elast. subst ns. simpl in Hlen. lia.
  - exists st. repeat split; try done; lia.
Qed.

(** C4 (as the code has it): a node-open line for X stores a fresh empty
    node under X whether or not X is already in the tree; a node that was
    there before is replaced, so what it had accumulated is no longer
    reachable from the tree, while the rest of the store is untouched. *)
Theorem C4_node_open_replaces (st : scanner) (l : L) (X : string) :
  shape_of l = SNode X →
  ∃ st', dispatch st l = Ok st'
    ∧ node_of (c_tree st') (mem st') X = Some newObject
    ∧ tnode st' = X
    ∧ nodes st' = nodes st ++ [X]
    ∧ (∀ Y, Y ≠ X → c_tree st' !! Y = c_tree st !! Y)
    ∧ (∀ i, i < length (mem st) → mem st' !! i = mem st !! i).
Proof.
  intros Hs. rewrite (dispatch_SNode _ _ _ Hs).
  eexists. split; [reflexivity|]. simpl. repeat split.
  - unfold node_of. rewrite lookup_insert_eq. simpl.
    rewrite lookup_app_r by lia. by rewrite Nat.sub_diag.
  - intros Y HY. by rewrite lookup_insert_ne.
  - intros i Hi. by rewrite lookup_app_l.
Qed.

(** Inverts a completed [dispatch] into the branch that was taken. *)
Ltac dispatch_inv Hd :=
  unfold dispatch, dispatch_tail in Hd;
  repeat (case_match; simplify_eq/=);
  repeat match type of Hd with
         | _ ≫= _ = Ok _ =>
             let a := fresh "h" in
             let Ha := fresh "Ha" in
             apply bind_Ok in Hd as (a & Ha & Hd)
         end;
  simplify_eq/=.

Lemma dispatch_tree (st st' : scanner) (l : L) :
  dispatch st l = Ok st' →
  c_tree st' =
    match shape_of l with
    | SNode n => <[n := length (mem st)]> (c_tree st)
    | _ => c_tree st
    end.
Proof.
  intros Hd. unfold shape_of. dispatch_inv Hd; done.
Qed.

Lemma scan_tree_mono (r : list L) (st st' : scanner) (n : string) :
  foldM dispatch st r = Ok st' →
  is_Some (c_tree st !! n) → is_Some (c_tree st' !! n).
Proof.
  revert st. induction r as [|l r IH]; intros st Hr Hn; simpl in Hr.
  - by simplify_eq.
  - apply bind_Ok in Hr as (st1 & Hd & Hr). apply (IH st1 Hr).
    rewrite (dispatch_tree _ _ _ Hd). destruct (shape_of l); try done.
    destruct (decide (n0 = n)) as [->|?].
    + rewrite lookup_insert_eq. eauto.
    + by rewrite lookup_insert_ne.
Qed.

Lemma scan_tree_no_node (r : list L) (st st' : scanner) :
  foldM dispatch st r = Ok st' →
  (∀ l n, l ∈ r → shape_of l ≠ SNode n) →
  c_tree st' = c_tree st.
Proof.
  revert st. induction r as [|l r IH]; intros st Hr Hno; simpl in Hr.
  - by simplify_eq.
  - apply bind_Ok in Hr as (st1 & Hd & Hr).
    rewrite (IH st1 Hr); [|intros l' n Hl'; apply Hno; by right].
    rewrite (dispatch_tree _ _ _ Hd).
    destruct (shape_of l) eqn:Es; try done.
    exfalso. eapply (Hno l); [by left | done].
Qed.

Lemma scan_tree_node (r : list L) (st st' : scanner) (l : L) (n : string) :
  foldM dispatch st r = Ok st' →
  l ∈ r → shape_of l = SNode n →
  is_Some (c_tree st' !! n).
Proof.
  revert st. induction r as [|l0 r IH]; intros st Hr Hl Hs; simpl in Hr.
  - by apply elem_of_nil in Hl.
  - apply bind_Ok in Hr as (st1 & Hd & Hr).
    apply elem_of_cons in Hl as [->|Hl]; [|by eapply IH].
    eapply scan_tree_mono; [done|].
    rewrite (dispatch_tree _ _ _ Hd), Hs, lookup_insert_eq. eauto.
Qed.

(** C1 (as the code has it): when the scan of the lines completes, ReadCfg
    returns the empty-configuration error if and only if the tree holds no
    node after the scan; in particular a completed scan into an empty tree
    of lines none of which opens a node returns that error, and a completed
    scan of lines one of which opens a node returns success. *)
Theorem C1_error_iff_tree_empty (c c' : Config) (h h' : heap) (r : list L)
    (e : option string) :
  ReadCfg c h r = Ok (c', h', e) →
  (e = Some EmptyConfiguration ↔ size (tree c') = 0)
  ∧ (e = None ↔ size (tree c') ≠ 0)
  ∧ (tree c = ∅ → (∀ l n, l ∈ r → shape_of l ≠ SNode n) →
       e = Some EmptyConfiguration)
  ∧ ((∃ l n, l ∈ r ∧ shape_of l = SNode n) → e = None).
Proof.
  unfold ReadCfg. intros (st & Hr & He)%bind_Ok.
  assert (Hsz : e = (if decide (size (c_tree st) < 1)
                     then Some EmptyConfiguration else None)
                ∧ tree c' = c_tree st).
  { case_decide; by simplify_eq/=. }
  destruct Hsz as [-> Ht]. rewrite Ht. clear He.
  repeat split.
  - case_decide; [lia | done].
  - case_decide; [done | lia].
  - case_decide; [done | lia].
  - case_decide; [lia | done].
  - intros Hc Hno. rewrite (scan_tree_no_node _ _ _ Hr Hno). simpl.
    rewrite Hc, map_size_empty. by case_decide; [|lia].
  - intros (l & n & Hl & Hs).
    destruct (scan_tree_node _ _ _ _ _ Hr Hl Hs) as [loc Hloc].
    case_decide as Hlt; [|done]. exfalso.
    assert (size (c_tree st) = 0) as Hz%map_size_empty_iff by lia.
    by rewrite Hz, lookup_empty in Hloc.
Qed.

Lemma scanner_ok_with_mem (st : scanner) (h : heap) :
  scanner_ok st → length h = length (mem st) → scanner_ok (with_mem h st).
Proof.
  intros [Ht Ho] Hlen. split; simpl; rewrite Hlen; [apply Ht | apply Ho].
Qed.

Lemma dispatch_ok (st st' : scanner) (l : L) :
  scanner_ok st → dispatch st l = Ok st' → scanner_ok st'.
Proof.
  intros Hok Hd. dispatch_inv Hd.
  all: repeat match goal with
         | Ha : assign _ _ _ = Ok _ |- _ => apply assign_length in Ha
         end.
  all: try (apply scanner_ok_with_mem; [done | congruence]).
  all: try done.
  all: destruct Hok as [Ht Ho]; split; simpl.
  all: try rewrite length_app; simpl.
  - intros n l0. destruct (decide (s = n)) as [->|?].
    + rewrite lookup_insert_eq. intros [= <-]. lia.
    + rewrite lookup_insert_ne by done. intros ?%Ht. lia.
  - intros l0 Hl0. destruct (Ho _ Hl0) as [Hlt Hno]. split; [lia|].
    intros n. destruct (decide (s = n)) as [->|?].
    + rewrite lookup_insert_eq. intros [= <-]. lia.
    + rewrite lookup_insert_ne by done. apply Hno.
  - intros n l0 ?%Ht. lia.
  - intros l0 [= <-]. split; [lia|]. intros n ?%Ht. lia.
Qed.

Lemma scan_ok (r : list L) (st st' : scanner) :
  scanner_ok st → foldM dispatch st r = Ok st' → scanner_ok st'.
Proof.
  revert st. induction r as [|l r IH]; intros st Hok Hr; simpl in Hr.
  - by simplify_eq.
  - apply bind_Ok in Hr as (st1 & Hd & Hr). eauto using dispatch_ok.
Qed.

Lemma Config_ok_empty (c : Config) (h : heap) :
  tree c = ∅ → Config_ok c h.
Proof. intros Hc n l Hl. rewrite Hc, lookup_empty in Hl. discriminate Hl. Qed.

Lemma scan_start_ok (c : Config) (h : heap) :
  Config_ok c h → scanner_ok (scan_start c h).
Proof. intros Hc. split; [apply Hc | done]. Qed.

Lemma assign_ip_at (h h' : heap) (p : ptr) (f : object → object)
    (ln : nat) (v : string) :
  assign h p f = Ok h' →
  ip_at h ln v →
  p ≠ Some ln ∨ (∀ ob, ip (f ob) = ip ob) →
  ip_at h' ln v.
Proof.
  intros (l & ob & -> & Hl & ->)%assign_Ok (n & Hn & Hv) Hor.
  destruct (decide (l = ln)) as [->|Hne].
  - destruct Hor as [?|Hf]; [done|]. exists (f ob).
    rewrite list_lookup_insert_eq by (by eapply lookup_lt_Some).
    split; [done|]. rewrite Hf. congruence.
  - exists n. by rewrite list_lookup_insert_ne.
Qed.

(** A completed [dispatch_tail] keeps the tree, and the [ip] of every object
    other than the pending source. *)
Lemma dispatch_tail_ip (st st' : scanner) (l : L) (ln : nat) (v : string) :
  o st ≠ Some ln →
  ip_at (mem st) ln v →
  dispatch_tail st l = Ok st' →
  c_tree st' = c_tree st ∧ ip_at (mem st') ln v.
Proof.
  intros Hne Hn Hd. unfold dispatch_tail in Hd.
  repeat (case_match; simplify_eq/=); eauto.
  all: repeat match type of Hd with
         | _ ≫= _ = Ok _ =>
             let a := fresh "h" in
             let Ha := fresh "Ha" in
             apply bind_Ok in Hd as (a & Ha & Hd)
         end; simplify_eq/=.
  all: split; [done|].
  all: repeat match goal with
         | Ha : assign ?h0 _ _ = Ok ?h1 |- ip_at ?h1 _ _ =>
             apply (assign_ip_at _ _ _ _ _ _ Ha);
               [|(by left) || (by right)]
         end.
  all: done.
Qed.

Lemma dispatch_SIpbh (st : scanner) (l : L) (v : string) :
  shape_of l = SIpbh v →
  dispatch st l =
    match last (nodes st) with
    | None => Panic IndexOutOfRange
    | Some top =>
        if decide (top ≠ src) then
          h ← assign (mem st) (c_tree st !! tnode st) (set_ip v);
          Ok (with_mem h st)
        else dispatch_tail st l
    end.
Proof.
  intros Hs. shape_cases Hs. unfold dispatch.
  repeat match goal with E : _ = _ |- _ => rewrite E end.
  by rewrite last_lookup, Nat.sub_1_r.
Qed.

(** *** The scan completes when context exists *)

#[local] Arguments assign : simpl never.

Lemma assign_total (h : heap) (l : nat) (f : object → object) :
  l < length h → ∃ h', assign h (Some l) f = Ok h' ∧ length h' = length h.
Proof.
  intros Hl. destruct (lookup_lt_is_Some_2 h l Hl) as [ob Hob].
  rewrite (assign_some _ _ _ _ Hob). eexists. split; [done|].
  by rewrite length_insert.
Qed.

Lemma dispatch_shape (st : scanner) (l : L) :
  dispatch st l =
    match shape_of l with
    | SMulti k v =>
        if decide (k = "exclude") then
          h ← assign (mem st) (c_tree st !! tnode st)
                (λ n, set_exc (exc n ++ [v]) n);
          Ok (with_mem h st)
        else if decide (k = "include") then
          h ← assign (mem st) (c_tree st !! tnode st)
                (λ n, set_inc (inc n ++ [v]) n);
          Ok (with_mem h st)
        else Ok st
    | SNode n =>
        Ok {| c_tree := <[n := length (mem st)]> (c_tree st);
              mem := mem st ++ [newObject]; tnode := n; leaf := leaf st;
              nodes := nodes st ++ [n]; o := o st |}
    | SLeaf k nm =>
        if decide (k = src) then
          Ok {| c_tree := c_tree st;
                mem := mem st ++ [set_nType (typeStr (tnode st))
                                    (set_name nm newObject)];
                tnode := tnode st; leaf := nm; nodes := nodes st ++ [k];
                o := Some (length (mem st)) |}
        else
          Ok {| c_tree := c_tree st; mem := mem st; tnode := tnode st;
                leaf := nm; nodes := nodes st ++ [k]; o := o st |}
    | SDsbl v =>
        h ← assign (mem st) (c_tree st !! tnode st)
              (set_disabled (strToBool v));
        Ok (with_mem h st)
    | SIpbh v =>
        match last (nodes st) with
        | None => Panic IndexOutOfRange
        | Some top =>
            if decide (top ≠ src) then
              h ← assign (mem st) (c_tree st !! tnode st) (set_ip v);
              Ok (with_mem h st)
            else dispatch_tail st l
        end
    | SName _ _ | SSkip | SRbrc | SNone => dispatch_tail st l
    end.
Proof.
  unfold dispatch, shape_of. rewrite last_lookup, Nat.sub_1_r.
  repeat case_match; simplify_eq/=; try done.
  all: unfold new in *; by simplify_eq.
Qed.

Lemma shape_SName (l : L) (k v : string) :
  shape_of l = SName k v → NAME l = Some (k, v).
Proof. intros Hs. by shape_cases Hs. Qed.

Lemma named_key_cases (k : string) :
  named_key k = false →
  k ≠ "description" ∧ k ≠ blackhole ∧ k ≠ files ∧ k ≠ "prefix" ∧ k ≠ urls.
Proof.
  unfold named_key. intros Hk%bool_decide_eq_false.
  repeat split; intros ->; apply Hk; set_solver.
Qed.

Lemma pop_top (ns : list string) :
  1 < length ns →
  ∃ top, take (length ns - 1) ns !! (length (take (length ns - 1) ns) - 1)
         = Some top.
Proof.
  intros Hlen. apply lookup_lt_is_Some_2. rewrite length_take. lia.
Qed.

(** The cases from [NAME] on complete when a pending source and a current
    node exist for the keys that need them; they keep the tree and the
    pending source, and either keep the context stack or pop it. *)
Lemma dispatch_tail_total (st : scanner) (l : L) :
  scanner_ok st →
  (∀ k v, NAME l = Some (k, v) → named_key k = true →
     is_Some (o st) ∧ is_Some (c_tree st !! tnode st)) →
  ∃ st', dispatch_tail st l = Ok st'
    ∧ c_tree st' = c_tree st ∧ o st' = o st
    ∧ length (mem st') = length (mem st)
    ∧ ((nodes st' = nodes st ∧ tnode st' = tnode st)
       ∨ (1 < length (nodes st)
          ∧ nodes st' = take (length (nodes st) - 1) (nodes st)
          ∧ last (nodes st') = Some (tnode st'))).
Proof.
  intros [Htree Hpend] Hctx. unfold dispatch_tail.
  destruct (NAME l) as [[k v]|] eqn:HN.
  - destruct (named_key k) eqn:Hk.
    + destruct (Hctx k v eq_refl Hk) as [[lo Hlo] [lt Hlt]].
      rewrite Hlo, Hlt.
      destruct (Hpend _ Hlo) as [Hlo' _]. apply Htree in Hlt.
      repeat case_decide.
      all: repeat match goal with
             | |- context [assign ?h (Some ?p) ?f] =>
                 let h' := fresh "h" in
                 let E := fresh "E" in
                 let Hlen := fresh "Hlen" in
                 destruct (assign_total h p f) as (h' & E & Hlen);
                   [lia|]; rewrite E; simpl
             end.
      all: eexists; split; [reflexivity|]; simpl.
      all: repeat split; eauto; lia.
    + apply named_key_cases in Hk as (? & ? & ? & ? & ?).
      rewrite !decide_False by done. exists st. eauto 10.
  - destruct (DESC l || CMNT l || MISC l); [exists st; eauto 10|].
    destruct (RBRC l); [|exists st; eauto 10].
    case_decide as Hlen; [|exists st; eauto 10].
    destruct (pop_top _ Hlen) as [top Htop]. rewrite Htop.
    eexists. split; [reflexivity|]. simpl. repeat split; try done.
    right. repeat split; try done.
    by rewrite last_lookup, <- Nat.sub_1_r.
Qed.

(** C6 (as the code has it): in the state reached after any lines, a bare
    IP line read while the context stack is empty indexes out of range.
    When the top of the stack (the most recently pushed name still open)
    is not "source", the line dereferences nil if the current node is not
    in the tree, and otherwise sets the ip of the current node to its value
    and changes nothing else of the store or the tree.  When the top is
    "source", the line leaves the ip of the current node as it was, and it
    is processed without fault when a source is pending. *)
Theorem C6_bare_ip_by_context (c : Config) (h : heap) (pre : list L) (l : L)
    (v : string) (st : scanner) :
  Config_ok c h →
  foldM dispatch (scan_start c h) pre = Ok st →
  shape_of l = SIpbh v →
  (nodes st = [] → dispatch st l = Panic IndexOutOfRange)
  ∧ (∀ top, last (nodes st) = Some top → top ≠ src →
       (c_tree st !! tnode st = None → dispatch st l = Panic NilDeref)
       ∧ (∀ ln n, c_tree st !! tnode st = Some ln → mem st !! ln = Some n →
            ∃ st' n',
              dispatch st l = Ok st' ∧ c_tree st' = c_tree st
              ∧ mem st' !! ln = Some n' ∧ ip n' = v ∧ same_but_ip n n'
              ∧ ∀ l', l' ≠ ln → mem st' !! l' = mem st !! l'))
  ∧ (last (nodes st) = Some src →
       ∀ ln n, c_tree st !! tnode st = Some ln → mem st !! ln = Some n →
         (∀ st', dispatch st l = Ok st' →
            c_tree st' = c_tree st ∧ ip_at (mem st') ln (ip n))
         ∧ (is_Some (o st) → ∃ st', dispatch st l = Ok st')).
Proof.
  intros Hc Hpre Hs.
  pose proof (scan_ok _ _ _ (scan_start_ok _ _ Hc) Hpre) as Hok.
  rewrite (dispatch_SIpbh _ _ _ Hs). split; [|split].
  - by intros ->.
  - intros top -> Hne. rewrite decide_True by done. split.
    + by intros ->.
    + intros ln n Hln Hn. rewrite Hln, (assign_some _ _ _ _ Hn).
      exists (with_mem (<[ln := set_ip v n]> (mem st)) st), (set_ip v n).
      split; [done|]. split; [done|]. cbn [with_mem mem].
      split; [apply list_lookup_insert_eq; by eapply lookup_lt_Some|].
      split; [done|]. split; [apply set_ip_same_but_ip|].
      intros l' Hl'. by rewrite list_lookup_insert_ne.
  - intros -> ln n Hln Hn. rewrite decide_False by (by intros []). split.
    + intros st' Hd. destruct Hok as [_ Ho].
      eapply dispatch_tail_ip; [|by exists n|done].
      intros Hol. destruct (Ho _ Hol) as [_ Hno]. by eapply Hno.
    + intros Ho. destruct (dispatch_tail_total st l Hok) as (st' & Hd & _).
      * intros _ _ _ _. split; [done | by rewrite Hln].
      * by exists st'.
Qed.

Lemma context_inv_same (f : context) (st st' : scanner) :
  context_inv f st →
  c_tree st' = c_tree st → o st' = o st →
  length (mem st') = length (mem st) →
  nodes st' = nodes st → tnode st' = tnode st →
  context_inv f st'.
Proof.
  intros ([Ht Ho] & Hnode & Hstack & Hsrc) Etree Eo Elen Enodes Etnode.
  unfold context_inv, scanner_ok.
  rewrite Etree, Eo, Elen, Enodes, Etnode. done.
Qed.

Lemma context_inv_pop (f f' : context) (st st' : scanner) :
  context_inv f st →
  seen_node f' = seen_node f → seen_source f' = seen_source f →
  c_tree st' = c_tree st → o st' = o st →
  length (mem st') = length (mem st) →
  1 < length (nodes st) →
  nodes st' = take (length (nodes st) - 1) (nodes st) →
  last (nodes st') = Some (tnode st') →
  context_inv f' st'.
Proof.
  intros ([Ht Ho] & Hnode & Hstack & Hsrc) En Es Etree Eo Elen Hlen Enodes
    Elast.
  assert (Hall : Forall (node_entry (c_tree st)) (nodes st')).
  { rewrite Enodes. destruct Hstack as [Hall|(_ & _ & Hall & _)]; [|done].
    by apply Forall_take. }
  unfold context_inv, scanner_ok. rewrite Etree, Eo, Elen, En, Es.
  split; [done|]. split; [|split; [by left | done]].
  intros _. split.
  - intros E. rewrite E in Elast. done.
  - apply last_Some_elem_of in Elast.
    rewrite Forall_forall in Hall. by destruct (Hall _ Elast).
Qed.

Lemma context_inv_close (f : context) (st : scanner) :
  context_inv f st →
  length (nodes st) ≤ 1 →
  context_inv {| seen_node := seen_node f; seen_source := seen_source f;
                 in_leaf := false |} st.
Proof.
  intros (Hok & Hnode & Hstack & Hsrc) Hlen.
  split; [done|]. split; [done|]. split; [|done].
  destruct Hstack as [Hall|(_ & Hge & _)]; [by left | lia].
Qed.

Lemma context_inv_current (f : context) (st : scanner) :
  context_inv f st → seen_node f = true →
  ∃ ln, c_tree st !! tnode st = Some ln ∧ ln < length (mem st).
Proof.
  intros ([Ht _] & Hnode & _) Hseen.
  destruct (Hnode Hseen) as [_ [ln Hln]]. eauto.
Qed.

Lemma assign_current (f : context) (st : scanner) (g : object → object) :
  context_inv f st → seen_node f = true →
  ∃ st', (h ← assign (mem st) (c_tree st !! tnode st) g; Ok (with_mem h st))
         = Ok st'
    ∧ context_inv f st'.
Proof.
  intros Hinv Hseen.
  destruct (context_inv_current _ _ Hinv Hseen) as (ln & -> & Hln).
  destruct (assign_total (mem st) ln g Hln) as (h & -> & Hlen). simpl.
  eexists. split; [done|]. by eapply context_inv_same.
Qed.

Lemma node_entry_insert (b : gmap string nat) (n m : string) (l : nat) :
  node_entry b m → node_entry (<[n := l]> b) m.
Proof.
  intros [Hm Hne]. split; [|done].
  destruct (decide (n = m)) as [->|?].
  - rewrite lookup_insert_eq. eauto.
  - by rewrite lookup_insert_ne.
Qed.

Lemma shape_no_NAME (l : L) :
  shape_of l = SSkip ∨ shape_of l = SRbrc ∨ shape_of l = SNone →
  NAME l = None.
Proof. intros [Hs|[Hs|Hs]]; by shape_cases Hs. Qed.

Lemma dispatch_tail_SRbrc (st : scanner) (l : L) :
  shape_of l = SRbrc →
  length (nodes st) ≤ 1 → dispatch_tail st l = Ok st.
Proof.
  intros Hs Hlen. shape_cases Hs. unfold dispatch_tail.
  repeat match goal with E : _ = _ |- _ => rewrite E end.
  rewrite decide_False by lia. done.
Qed.

Lemma dispatch_tail_SRbrc_pop (st : scanner) (l : L) :
  shape_of l = SRbrc →
  1 < length (nodes st) →
  ∃ st', dispatch_tail st l = Ok st'
    ∧ c_tree st' = c_tree st ∧ o st' = o st ∧ mem st' = mem st
    ∧ nodes st' = take (length (nodes st) - 1) (nodes st)
    ∧ last (nodes st') = Some (tnode st').
Proof.
  intros Hs Hlen. shape_cases Hs. unfold dispatch_tail.
  repeat match goal with E : _ = _ |- _ => rewrite E end.
  rewrite decide_True by done.
  destruct (pop_top _ Hlen) as [top Htop]. rewrite Htop.
  eexists. split; [reflexivity|]. simpl. repeat split.
  by rewrite last_lookup, <- Nat.sub_1_r.
Qed.

(** One line: when the line comes with its context the branch it takes
    completes, and the state keeps describing the context. *)
Lemma dispatch_context (f f' : context) (st : scanner) (l : L) :
  context_inv f st →
  context_step f l = Some f' →
  ∃ st', dispatch st l = Ok st' ∧ context_inv f' st'.
Proof.
  intros Hinv Hstep. rewrite dispatch_shape. unfold context_step in Hstep.
  destruct (shape_of l) as [k v|n|k nm|v|v|k v| | |] eqn:Es.
  - (* multi-value *)
    destruct (seen_node f) eqn:Hseen; simplify_eq.
    repeat case_decide; eauto using assign_current.
  - (* node-open *)
    destruct (in_leaf f) eqn:Hleaf; [done|].
    case_bool_decide as Hsrc; simplify_eq/=.
    eexists. split; [reflexivity|].
    destruct Hinv as ([Ht Ho] & Hnode & Hstack & Hpend).
    destruct Hstack as [Hall|(? & _)]; [|congruence].
    split; [|split; [|split]]; simpl.
    + split; simpl; rewrite length_app; simpl.
      * intros m lm. destruct (decide (n = m)) as [->|?].
        -- rewrite lookup_insert_eq. intros [= <-]. lia.
        -- rewrite lookup_insert_ne by done. intros ?%Ht. lia.
      * intros lo Hlo. destruct (Ho _ Hlo) as [Hlt Hno]. split; [lia|].
        intros m. destruct (decide (n = m)) as [->|?].
        -- rewrite lookup_insert_eq. intros [= <-]. lia.
        -- rewrite lookup_insert_ne by done. apply Hno.
    + intros _. split; [by destruct (nodes st)|].
      rewrite lookup_insert_eq. eauto.
    + left. apply Forall_app. split.
      * eapply Forall_impl; [done|]. intros m. apply node_entry_insert.
      * apply Forall_singleton. split; [|done].
        rewrite lookup_insert_eq. eauto.
    + intros Hs. destruct (Hpend Hs) as [? _]. done.
  - (* leaf-open *)
    destruct (seen_node f) eqn:Hseen; [|done].
    destruct (in_leaf f) eqn:Hleaf; [done|]. simplify_eq/=.
    destruct Hinv as ([Ht Ho] & Hnode & Hstack & Hpend).
    destruct Hstack as [Hall|(? & _)]; [|congruence].
    destruct (Hnode Hseen) as [Hne Hcur].
    assert (Hlen : 2 ≤ length (nodes st ++ [k])).
    { rewrite length_app. simpl. destruct (nodes st); [done | simpl; lia]. }
    assert (Htake : take (length (nodes st ++ [k]) - 1) (nodes st ++ [k])
                    = nodes st).
    { rewrite length_app. simpl.
      replace (length (nodes st) + 1 - 1) with (length (nodes st)) by lia.
      apply take_app_length. }
    case_decide as Hk.
    + subst k. eexists. split; [reflexivity|].
      split; [|split; [|split]]; simpl.
      * split; simpl; rewrite length_app; simpl.
        -- intros m lm ?%Ht. lia.
        -- intros lo [= <-]. split; [lia|]. intros m ?%Ht. lia.
      * intros _. split; [by destruct (nodes st) | done].
      * right. rewrite Htake. eauto.
      * eauto.
    + eexists. split; [reflexivity|].
      split; [|split; [|split]]; simpl.
      * done.
      * intros _. split; [by destruct (nodes st) | done].
      * right. rewrite Htake. repeat split; try done.
        rewrite last_snoc. by intros [= ?].
      * rewrite bool_decide_eq_false_2 by done. rewrite orb_false_r.
        intros Hs. destruct (Hpend Hs). done.
  - (* disabled-flag *)
    destruct (seen_node f) eqn:Hseen; simplify_eq.
    eauto using assign_current.
  - (* bare IP *)
    destruct (seen_node f) eqn:Hseen; simplify_eq.
    pose proof Hinv as (Hok & Hnode & Hstack & Hpend).
    destruct (Hnode Hseen) as [Hne Hcur].
    destruct (last (nodes st)) as [top|] eqn:Etop;
      [|by apply last_None in Etop].
    case_decide as Htop; [eauto using assign_current|].
    assert (top = src) as -> by (by destruct (decide (top = src)); [|done]).
    assert (Ho : is_Some (o st)).
    { destruct Hstack as [Hall|(_ & _ & _ & Ho)]; [|by apply Ho].
      apply last_Some_elem_of in Etop. rewrite Forall_forall in Hall.
      by destruct (Hall _ Etop). }
    destruct (dispatch_tail_total st l Hok) as
      (st' & -> & Etree & Eo & Elen & [[En Et]|(Hlen & En & El)]); [done|..].
    + exists st'. split; [done|]. by eapply context_inv_same.
    + exists st'. split; [done|]. by eapply context_inv_pop.
  - (* named attribute *)
    pose proof Hinv as (Hok & Hnode & Hstack & Hpend).
    destruct (dispatch_tail_total st l Hok) as
      (st' & -> & Etree & Eo & Elen & [[En Et]|(Hlen & En & El)]).
    + intros k' v' HN Hk'. rewrite (shape_SName _ _ _ Es) in HN.
      simplify_eq. rewrite Hk' in Hstep. simpl in Hstep.
      destruct (seen_source f) eqn:Hs; [|done].
      destruct Hpend as [? Hseen]; [done|]. split; [done|].
      by destruct (Hnode Hseen).
    + exists st'. split; [done|].
      destruct (negb (named_key k) || seen_source f); simplify_eq.
      by eapply context_inv_same.
    + exists st'. split; [done|].
      destruct (negb (named_key k) || seen_source f); simplify_eq.
      by eapply context_inv_pop.
  - (* comment, misc *)
    simplify_eq. pose proof Hinv as (Hok & _).
    destruct (dispatch_tail_total st l Hok) as
      (st' & -> & Etree & Eo & Elen & [[En Et]|(Hlen & En & El)]).
    + intros k v HN. rewrite shape_no_NAME in HN by eauto. done.
    + exists st'. split; [done|]. by eapply context_inv_same.
    + exists st'. split; [done|]. by eapply context_inv_pop.
  - (* close-brace *)
    simplify_eq. pose proof Hinv as (Hok & _).
    destruct (decide (length (nodes st) ≤ 1)) as [Hshort|Hlong].
    + rewrite (dispatch_tail_SRbrc _ _ Es Hshort).
      exists st. split; [done|]. by apply context_inv_close.
    + destruct (dispatch_tail_SRbrc_pop st l Es) as
        (st' & -> & Etree & Eo & Emem & En & El); [lia|].
      exists st'. split; [done|].
      apply (context_inv_pop f _ st st' Hinv);
        [done | done | done | done | by rewrite Emem | lia | done | done].
  - (* no pattern matches *)
    simplify_eq. pose proof Hinv as (Hok & _).
    destruct (dispatch_tail_total st l Hok) as
      (st' & -> & Etree & Eo & Elen & [[En Et]|(Hlen & En & El)]).
    + intros k v HN. rewrite shape_no_NAME in HN by eauto. done.
    + exists st'. split; [done|]. by eapply context_inv_same.
    + exists st'. split; [done|]. by eapply context_inv_pop.
Qed.

(** The scan of lines that come with their context completes. *)
Lemma scan_context (r : list L) (f : context) (st : scanner) :
  context_inv f st → context_exists f r = true →
  ∃ st', foldM dispatch st r = Ok st'.
Proof.
  revert f st. induction r as [|l r IH]; intros f st Hinv Hr; simpl in *.
  - eauto.
  - destruct (context_step f l) as [f'|] eqn:Hstep; [|done].
    destruct (dispatch_context _ _ _ _ Hinv Hstep) as (st1 & -> & Hinv1).
    simpl. by eapply IH.
Qed.

Lemma context_inv_start (c : Config) (h : heap) :
  Config_ok c h → context_inv no_context (scan_start c h).
Proof.
  intros Hc. split; [by apply scan_start_ok|].
  split; [done|]. split; [by left | done].
Qed.

(** [context_exists] implies the precondition in the words of the
    specification, [preceded_by_context]. *)
Lemma context_exists_preceded (r : list L) (f f0 : context) :
  seen_node f0 = seen_node f → seen_source f0 = seen_source f →
  context_exists f r = true → preceded_by_context f0 r = true.
Proof.
  revert f f0. induction r as [|l r IH]; intros f f0 En Es Hr; [done|].
  simpl in *. unfold context_step in Hr.
  destruct (shape_of l); rewrite ?En, ?Es.
  all: repeat match type of Hr with
         | context [if ?b then _ else _] => destruct b eqn:?; [|done]
         end.
  all: simpl; try by eapply IH.
  all: repeat match goal with
         | E : _ && _ = true |- _ => apply andb_prop in E as [? ?]
         end.
  all: try (rewrite andb_true_iff; split; [done|]).
  all: try (eapply IH; [| |exact Hr]; simpl; congruence).
Qed.

(** C10 (as the code has it): the scan completes without a fault for every
    line sequence in which each multi-value, disabled-flag, bare-IP and
    leaf-open line comes after a node-open line, each named-attribute line
    of the five keys comes after a source leaf-open line, no node is named
    "source", and a block opened by a leaf-open line is closed before the
    next block opens; this implies the precondition of the specification.
    Without context the branches fault: a bare IP line as the first line
    indexes the empty context stack, and an exclude line as the first line
    dereferences the absent node. *)
Theorem C10_scan_completes_with_context (c : Config) (h : heap) (r : list L) :
  Config_ok c h →
  (context_exists no_context r = true →
     preceded_by_context no_context r = true
     ∧ ∃ c' h' e, ReadCfg c h r = Ok (c', h', e))
  ∧ (∀ l v, shape_of l = SIpbh v →
       ReadCfg c h (l :: r) = Panic IndexOutOfRange)
  ∧ (∀ l v, shape_of l = SMulti "exclude" v → tree c !! "" = None →
       ReadCfg c h (l :: r) = Panic NilDeref).
Proof.
  intros Hc. repeat split.
  - by eapply context_exists_preceded.
  - destruct (scan_context r _ _ (context_inv_start _ _ Hc)) as [st Hst];
      [done|].
    unfold ReadCfg. rewrite Hst. simpl. case_decide; eauto.
  - intros l v Hs. unfold ReadCfg. simpl.
    rewrite dispatch_shape, Hs. done.
  - intros l v Hs Hnil. unfold ReadCfg. simpl.
    rewrite dispatch_shape, Hs. simpl. rewrite Hnil. done.
Qed.

(** *** Further properties of the scan *)

Lemma foldM_app {A B} (f : A → B → result A) (a : A) (l1 l2 : list B) :
  foldM f a (l1 ++ l2) = foldM f a l1 ≫= λ a', foldM f a' l2.
Proof.
  revert a. induction l1 as [|b l1 IH]; intros a; [done|].
  simpl. destruct (f a b); [apply IH | done].
Qed.

Lemma scan_node_names (r : list L) (st st' : scanner) (n : string) :
  foldM dispatch st r = Ok st' →
  is_Some (c_tree st' !! n)
  ↔ is_Some (c_tree st !! n) ∨ ∃ l, l ∈ r ∧ shape_of l = SNode n.
Proof.
  revert st. induction r as [|l r IH]; intros st Hr; simpl in Hr.
  - simplify_eq. split; [eauto|]. intros [?|(l & Hl & _)]; [done|].
    by apply elem_of_nil in Hl.
  - apply bind_Ok in Hr as (st1 & Hd & Hr). rewrite (IH _ Hr).
    rewrite (dispatch_tree _ _ _ Hd). split.
    + intros [Hn|(l' & Hl' & Hs)].
      * destruct (shape_of l) eqn:Es; eauto.
        destruct (decide (n0 = n)) as [->|Hne].
        -- right. exists l. split; [by left | done].
        -- rewrite lookup_insert_ne in Hn by done. eauto.
      * right. exists l'. split; [by right | done].
    + intros [Hn|(l' & Hl' & Hs)].
      * left. destruct (shape_of l); try done.
        destruct (decide (n0 = n)) as [->|Hne].
        -- rewrite lookup_insert_eq. eauto.
        -- by rewrite lookup_insert_ne.
      * apply elem_of_cons in Hl' as [->|Hl']; [|eauto].
        left. rewrite Hs, lookup_insert_eq. eauto.
Qed.

(** After a completed [ReadCfg] the node names of the tree are the names it
    had before and the names of the node-open lines, no more and no less;
    the settings are untouched. *)
Theorem ReadCfg_node_names (c c' : Config) (h h' : heap) (r : list L)
    (e : option string) :
  ReadCfg c h r = Ok (c', h', e) →
  Config_Parms c' = Config_Parms c
  ∧ ∀ n, is_Some (tree c' !! n)
         ↔ is_Some (tree c !! n) ∨ ∃ l, l ∈ r ∧ shape_of l = SNode n.
Proof.
  unfold ReadCfg. intros (st & Hr & He)%bind_Ok.
  assert (c' = {| Config_Parms := Config_Parms c; tree := c_tree st |})
    as -> by (case_decide; by simplify_eq).
  split; [done|]. intros n. simpl. by rewrite (scan_node_names _ _ _ _ Hr).
Qed.

Lemma head_take_pred (ns : list string) :
  1 < length ns → head (take (length ns - 1) ns) = head ns.
Proof. destruct ns as [|a [|b ns]]; simpl; [lia..|done]. Qed.

Lemma head_snoc (ns : list string) (n b : string) :
  head ns = Some b → head (ns ++ [n]) = Some b.
Proof. by destruct ns. Qed.

Lemma dispatch_bottom (st st' : scanner) (l : L) (b : string) :
  dispatch st l = Ok st' → head (nodes st) = Some b →
  head (nodes st') = Some b.
Proof.
  intros Hd Hb. dispatch_inv Hd; try done; try by apply head_snoc.
  all: rewrite head_take_pred; [done|].
  all: match goal with E : decide (1 < _) = left ?p |- _ => exact p end.
Qed.

(** Once a block is open the context stack never runs empty again, and its
    first entry, the outermost block, stays where it is through every line
    that follows, close-brace lines included. *)
Theorem scan_keeps_outermost_block (r : list L) (st st' : scanner)
    (b : string) :
  head (nodes st) = Some b →
  foldM dispatch st r = Ok st' →
  head (nodes st') = Some b ∧ 1 ≤ length (nodes st').
Proof.
  intros Hb Hr.
  assert (Hhead : head (nodes st') = Some b).
  { revert st Hb Hr. induction r as [|l r IH]; intros st Hb Hr; simpl in Hr.
    - by simplify_eq.
    - apply bind_Ok in Hr as (st1 & Hd & Hr).
      eapply IH; [|done]. by eapply dispatch_bottom. }
  split; [done|]. destruct (nodes st'); [done | simpl; lia].
Qed.

(** An ignored line leaves the scanner as it is. *)
Lemma dispatch_ignored (st : scanner) (l : L) :
  ignored l → dispatch st l = Ok st.
Proof.
  unfold ignored. intros Hi. rewrite dispatch_shape.
  destruct (shape_of l) as [k v|n|k nm|v|v|k v| | |] eqn:Es; try done.
  - destruct Hi. by rewrite !decide_False.
  - unfold dispatch_tail. rewrite (shape_SName _ _ _ Es).
    apply named_key_cases in Hi as (? & ? & ? & ? & ?).
    by rewrite !decide_False.
  - shape_cases Es. unfold dispatch_tail.
    by repeat match goal with E : _ = _ |- _ => rewrite E end.
  - shape_cases Es. unfold dispatch_tail.
    by repeat match goal with E : _ = _ |- _ => rewrite E end.
Qed.

(** Comment lines, lines of no known shape, attributes with unknown keys
    and multi-value lines of an unknown kind can stand anywhere in the
    input: [ReadCfg] gives the same result as without them. *)
Theorem ReadCfg_passes_over_ignored_lines (c : Config) (h : heap)
    (r1 ign r2 : list L) :
  Forall ignored ign →
  ReadCfg c h (r1 ++ ign ++ r2) = ReadCfg c h (r1 ++ r2).
Proof.
  intros Hign. unfold ReadCfg. f_equal. rewrite !foldM_app.
  destruct (foldM dispatch (scan_start c h) r1) as [st|]; [|done]. simpl.
  induction Hign as [|l ign Hl _ IH]; [done|].
  simpl. by rewrite (dispatch_ignored _ _ Hl).
Qed.

(** *** Multi-value lines *)

Lemma with_mem_same (st : scanner) : with_mem (mem st) st = st.
Proof. by destruct st. Qed.

Lemma set_inc_set_exc_same (nd : object) :
  set_inc (inc nd) (set_exc (exc nd) nd) = nd.
Proof. by destruct nd. Qed.

(** Exclude and include lines in a row, in any mix, are all captured: the
    values of the exclude lines are appended to the current node's excludes
    and those of the include lines to its includes, each in the order of
    the lines; nothing else changes. *)
Theorem multi_value_lines_accumulate (r : list L)
    (kvs : list (string * string)) (st : scanner) (ln : nat) (nd : object) :
  c_tree st !! tnode st = Some ln → mem st !! ln = Some nd →
  Forall2 (λ l kv, shape_of l = SMulti kv.1 kv.2
                   ∧ (kv.1 = "exclude" ∨ kv.1 = "include")) r kvs →
  foldM dispatch st r
  = Ok (with_mem
          (<[ln := set_inc
                     (inc nd ++ (filter (λ kv, kv.1 = "include") kvs).*2)
                     (set_exc
                        (exc nd ++ (filter (λ kv, kv.1 = "exclude") kvs).*2)
                        nd)]> (mem st))
          st).
Proof.
  intros Hln Hnd Hall. revert st nd Hln Hnd.
  induction Hall as [|l [k v] r kvs [Hs Hk] _ IH]; intros st nd Hln Hnd.
  - rewrite !filter_nil, !fmap_nil, !app_nil_r, set_inc_set_exc_same.
    rewrite list_insert_id by done. by rewrite with_mem_same.
  - rewrite foldM_cons, dispatch_shape, Hs. simpl in Hk. cbn [fst snd].
    rewrite Hln.
    destruct Hk as [-> | ->].
    + rewrite decide_True by done. rewrite (assign_some _ _ _ _ Hnd).
      rewrite !bind_Ok_l.
      rewrite (IH _ (set_exc (exc nd ++ [v]) nd)); simpl.
      * rewrite list_insert_insert_eq.
        rewrite (filter_cons_False (λ kv : string * string, kv.1 = "include"))
          by done.
        by rewrite <- app_assoc.
      * done.
      * apply list_lookup_insert_eq. by eapply lookup_lt_Some.
    + rewrite decide_False by done. rewrite decide_True by done.
      rewrite (assign_some _ _ _ _ Hnd). rewrite !bind_Ok_l.
      rewrite (IH _ (set_inc (inc nd ++ [v]) nd)); simpl.
      * rewrite list_insert_insert_eq.
        rewrite (filter_cons_False (λ kv : string * string, kv.1 = "exclude"))
          by done.
        by rewrite <- app_assoc.
      * done.
      * apply list_lookup_insert_eq. by eapply lookup_lt_Some.
Qed.

(** *** Source blocks *)

Lemma assign_last (h : heap) (ob : object) (f : object → object) (lo : nat) :
  lo = length h →
  assign (h ++ [ob]) (Some lo) f = Ok (h ++ [f ob]).
Proof.
  intros ->. unfold assign. rewrite lookup_app_r, Nat.sub_diag by lia. simpl.
  f_equal. rewrite insert_app_r_alt, Nat.sub_diag by lia. done.
Qed.

Lemma assign_app_l (h : heap) (ob nd : object) (ln : nat)
    (f : object → object) :
  h !! ln = Some nd →
  assign (h ++ [ob]) (Some ln) f = Ok (<[ln := f nd]> h ++ [ob]).
Proof.
  intros Hnd. pose proof (lookup_lt_Some _ _ _ Hnd) as Hlt.
  unfold assign. rewrite lookup_app_l, Hnd by done.
  f_equal. by rewrite insert_app_l.
Qed.

Lemma foldM_three {A B} (f : A → B → result A) (a : A) (b1 b2 b3 : B) :
  foldM f a [b1; b2; b3]
  = f a b1 ≫= (λ a1, f a1 b2 ≫= (λ a2, f a2 b3)).
Proof.
  simpl. destruct (f a b1) as [a1|]; [simpl|done].
  destruct (f a1 b2) as [a2|]; [simpl|done]. apply bind_Ok_r.
Qed.

(** A source block [source nm {] with a url line and one other attribute
    line (description, prefix or dns-redirect-ip) gives the same result
    whichever of the two lines comes first: the attribute line written
    after the url line still reaches the source, which the node's list
    already points to.  The node gets one new source, last in its list,
    with the name of the block, the url, the leaf type "url" and the node
    type of the current node. *)
Theorem source_block_attribute_order (st : scanner) (ln : nat) (nd : object)
    (l0 lu la : L) (nm u k v : string) :
  c_tree st !! tnode st = Some ln → mem st !! ln = Some nd →
  shape_of l0 = SLeaf src nm →
  shape_of lu = SName urls u →
  shape_of la = SName k v →
  k ∈ ["description"; "prefix"; blackhole] →
  foldM dispatch st [l0; la; lu] = foldM dispatch st [l0; lu; la]
  ∧ ∃ st' ob,
      foldM dispatch st [l0; lu; la] = Ok st'
      ∧ mem st' = <[ln := append_x (Some (length (mem st))) nd]> (mem st)
                  ++ [ob]
      ∧ o st' = Some (length (mem st))
      ∧ c_tree st' = c_tree st ∧ tnode st' = tnode st
      ∧ nodes st' = nodes st ++ [src] ∧ leaf st' = nm
      ∧ name ob = nm ∧ url ob = u ∧ ltype ob = urls
      ∧ nType ob = typeStr (tnode st)
      ∧ (k = "description" → desc ob = v)
      ∧ (k = "prefix" → prefix ob = v)
      ∧ (k = blackhole → ip ob = v).
Proof.
  intros Hln Hnd H0s Hus Has Hk.
  pose proof (shape_SName _ _ _ Hus) as HNu.
  pose proof (shape_SName _ _ _ Has) as HNa.
  rewrite !foldM_three, !(dispatch_shape st l0), H0s.
  rewrite decide_True by done. rewrite !bind_Ok_l.
  rewrite !dispatch_shape, Hus, Has.
  unfold dispatch_tail. rewrite HNu, HNa. simpl.
  rewrite Hln.
  repeat (apply elem_of_cons in Hk as [->|Hk]);
    [..|by apply elem_of_nil in Hk].
  all: repeat (rewrite ?decide_True, ?decide_False by done; simpl).
  all: repeat first
         [ rewrite assign_last by (by rewrite ?length_insert)
         | rewrite (assign_app_l _ _ nd) by done
         | rewrite bind_Ok_l ]; simpl.
  all: rewrite !dispatch_shape, ?Hus, ?Has.
  all: unfold dispatch_tail; rewrite ?HNu, ?HNa; simpl; rewrite ?Hln.
  all: repeat (rewrite ?decide_True, ?decide_False by done; simpl).
  all: repeat first
         [ rewrite assign_last by (by rewrite ?length_insert)
         | rewrite (assign_app_l _ _ nd) by done
         | rewrite bind_Ok_l ]; simpl.
  all: split; [done|].
  all: eexists _, _; split; [reflexivity|]; simpl.
  all: repeat split; done.
Qed.

(** *** Source pointers stay valid *)

Lemma store_ok_app (h : heap) (ob : object) :
  store_ok h → x (objects ob) = [] → store_ok (h ++ [ob]).
Proof.
  intros Hok Hx l ob' p Hl Hp. rewrite length_app. simpl.
  apply lookup_app_Some in Hl as [Hl|[_ Hl]].
  - destruct (Hok _ _ _ Hl Hp) as (l' & -> & Hl'). exists l'. split; [done|lia].
  - apply list_lookup_singleton_Some in Hl as [_ <-].
    rewrite Hx in Hp. by apply elem_of_nil in Hp.
Qed.

Lemma assign_store_ok (h h' : heap) (p : ptr) (f : object → object) :
  store_ok h → assign h p f = Ok h' →
  (∀ ob q, q ∈ x (objects (f ob)) →
     q ∈ x (objects ob) ∨ ∃ l', q = Some l' ∧ l' < length h) →
  store_ok h'.
Proof.
  intros Hok (l & ob & -> & Hl & ->)%assign_Ok Hf l1 ob1 q Hl1 Hq.
  rewrite length_insert. destruct (decide (l = l1)) as [->|Hne].
  - rewrite list_lookup_insert_eq in Hl1 by (by eapply lookup_lt_Some).
    simplify_eq. destruct (Hf _ _ Hq) as [Hq'|?]; [|done].
    by eapply Hok.
  - rewrite list_lookup_insert_ne in Hl1 by done. by eapply Hok.
Qed.

Lemma dispatch_store_ok (st st' : scanner) (l : L) :
  store_ok (mem st) → dispatch st l = Ok st' → store_ok (mem st').
Proof.
  intros Hok Hd. dispatch_inv Hd; try done.
  all: try (apply store_ok_app; done).
  all: repeat match goal with
         | Ha : assign ?h0 _ _ = Ok ?h1 |- store_ok ?h1 =>
             apply (assign_store_ok _ _ _ _) with (2 := Ha)
         end; try done.
  all: try (intros ob q Hq; by left).
  all: intros ob q [Hq|Hq%list_elem_of_singleton]%elem_of_app; [by left|].
  all: right; subst q.
  all: repeat match goal with
         | Ha : assign _ (o _) _ = Ok _ |- _ =>
             pose proof (assign_length _ _ _ _ Ha);
             apply assign_Ok in Ha as (lo & obo & Eo & Hlo%lookup_lt_Some & ?)
         end.
  all: simplify_eq; rewrite Eo; eexists; split; [done|].
  all: rewrite ?length_insert in *; lia.
Qed.

Lemma scan_store_ok (r : list L) (st st' : scanner) :
  store_ok (mem st) → foldM dispatch st r = Ok st' → store_ok (mem st').
Proof.
  revert st. induction r as [|l r IH]; intros st Hok Hr; simpl in Hr.
  - by simplify_eq.
  - apply bind_Ok in Hr as (st1 & Hd & Hr). eauto using dispatch_store_ok.
Qed.

Lemma ReadCfg_scan (c c' : Config) (h h' : heap) (r : list L)
    (e : option string) :
  ReadCfg c h r = Ok (c', h', e) →
  ∃ st, foldM dispatch (scan_start c h) r = Ok st
        ∧ tree c' = c_tree st ∧ h' = mem st.
Proof.
  unfold ReadCfg. intros (st & Hr & He)%bind_Ok. exists st.
  split; [done|]. case_decide; by simplify_eq.
Qed.

(** A completed [ReadCfg] leaves no pointer dangling: every node of the tree
    is in the store, and every source pointer kept by an object of the
    store is non-nil and leads into the store, provided this held before. *)
Theorem ReadCfg_keeps_pointers_valid (c c' : Config) (h h' : heap)
    (r : list L) (e : option string) :
  Config_ok c h → store_ok h →
  ReadCfg c h r = Ok (c', h', e) →
  Config_ok c' h' ∧ store_ok h'.
Proof.
  intros Hc Hs (st & Hr & Ht & ->)%ReadCfg_scan. split.
  - destruct (scan_ok _ _ _ (scan_start_ok _ _ Hc) Hr) as [Hok _].
    intros n l. rewrite Ht. apply Hok.
  - eapply scan_store_ok; [|exact Hr]. exact Hs.
Qed.

(** After a completed [ReadCfg] whose tree holds the root node, the sources
    of every node of the tree can be resolved: [validate] does not fault,
    returns the node's list, and changes the store in ips only. *)
Theorem validate_completes_after_ReadCfg (c c' : Config) (h h' : heap)
    (r : list L) (e : option string) (node : string) :
  Config_ok c h → store_ok h →
  ReadCfg c h r = Ok (c', h', e) →
  is_Some (tree c' !! rootNode) → is_Some (tree c' !! node) →
  ∃ h'' objs,
    validate (tree c') h' node = Ok (h'', objs)
    ∧ x objs = node_sources (tree c') h' node
    ∧ resolved_store h' h''.
Proof.
  intros Hc Hs (st & Hr & Ht & ->)%ReadCfg_scan [lr Hlr] [ln Hln].
  destruct (scan_ok _ _ _ (scan_start_ok _ _ Hc) Hr) as [Hok _].
  pose proof (scan_store_ok r (scan_start c h) st Hs Hr) as Hstore.
  rewrite Ht in *.
  destruct (lookup_lt_is_Some_2 (mem st) ln) as [n Hn]; [by eapply Hok|].
  destruct (lookup_lt_is_Some_2 (mem st) lr) as [r0 Hr0]; [by eapply Hok|].
  destruct (validate_resolves (c_tree st) (mem st) node ln lr n r0
              Hln Hn Hlr Hr0) as (h'' & v & _ & Hval & Hfill).
  { intros p Hp. exact (Hstore _ _ _ Hn Hp). }
  exists h'', (objects n). split; [done|]. split.
  - unfold node_sources, node_of. rewrite Hln. simpl. by rewrite Hn.
  - by eapply filled_in_resolved.
Qed.

End parser.

(** * Worked inputs *)

Section inputs.
#[local] Existing Instance label_helpers.
#[local] Existing Instance cfgline_rx.

Lemma C1_counterexample :
  (∀ l n, l ∈ [multi "exclude" "a.com"] → shape_of l ≠ SNode n)
  ∧ ReadCfg NewConfig [] [multi "exclude" "a.com"] = Panic NilDeref
  ∧ ¬ ∃ c' h', ReadCfg NewConfig [] [multi "exclude" "a.com"]
               = Ok (c', h', Some EmptyConfiguration).
Proof.
  split; [|split].
  - intros l n ->%list_elem_of_singleton. done.
  - reflexivity.
  - intros (c' & h' & E). vm_compute in E. discriminate E.
Qed.

Lemma C1_witness :
  ReadCfg NewConfig [] scenario = Ok (scenario_config, scenario_store, None)
  ∧ (None = Some EmptyConfiguration ↔ size (tree scenario_config) = 0)
  ∧ ((None : option string) = None ↔ size (tree scenario_config) ≠ 0).
Proof.
  assert (Hrun : ReadCfg NewConfig [] scenario
                 = Ok (scenario_config, scenario_store, None))
    by (vm_compute; reflexivity).
  split; [exact Hrun|].
  destruct (C1_error_iff_tree_empty NewConfig scenario_config []
              scenario_store scenario None Hrun) as (H1 & H2 & _).
  exact (conj H1 H2).
Defined.

Lemma C2_witness :
  parsed_tree !! domains = Some 1
  ∧ parsed_tree !! rootNode = Some 0
  ∧ getIP parsed_tree parsed_store domains = Ok "0.0.0.0".
Proof.
  split; [reflexivity|]. split; [reflexivity|].
  destruct (C2_getIP_inherits parsed_tree parsed_store domains 1 0
              (append_x (Some 4) (append_x (Some 3)
                 (set_exc ["b.com"] newObject)))
              (set_exc ["a.com"] (set_ip "0.0.0.0" newObject))
              eq_refl eq_refl eq_refl eq_refl) as (_ & Hroot & _).
  exact (Hroot eq_refl).
Defined.

Lemma C3_counterexample :
  ∃ h' view agg,
    addExc parsed parsed_store rootNode = Ok (h', view)
    ∧ x view = [Some 5] ∧ h' !! 5 = Some agg
    ∧ (∃ ob, node_of parsed_tree parsed_store domains = Some ob
             ∧ "b.com" ∈ exc ob)
    ∧ "b.com" ∉ exc agg.
Proof.
  eexists _, _, _. split; [vm_compute; reflexivity|].
  split; [reflexivity|]. split; [reflexivity|]. split.
  - eexists. split; [reflexivity|]. simpl. by left.
  - simpl. intros Hin%list_elem_of_singleton. discriminate Hin.
Qed.

Lemma C3_witness :
  parsed_tree !! rootNode = Some 0
  ∧ (∃ agg, addExc parsed parsed_store rootNode
            = Ok (parsed_store ++ [agg],
                  {| Objects_Parms := Some test_Parms; x := [Some 5] |})
            ∧ exc agg = ["a.com"])
  ∧ (∃ e, excludes parsed parsed_store None = Ok e
          ∧ (is_Some (list_entry e !! "b.com") ↔
               ∃ n ob, node_of parsed_tree parsed_store n = Some ob
                       ∧ "b.com" ∈ exc ob)).
Proof.
  split; [reflexivity|].
  destruct (C3_root_exclusions_are_the_roots parsed parsed_store 0
              (set_exc ["a.com"] (set_ip "0.0.0.0" newObject)))
    as [(agg & Hagg & Hexc & _) (e & He & Hkeys)].
  - reflexivity.
  - reflexivity.
  - apply (bool_decide_unpack
             (map_Forall (λ (_ : string) l, is_Some (parsed_store !! l))
                         parsed_tree)).
    vm_compute. exact I.
  - split.
    + exists agg. exact (conj Hagg Hexc).
    + exists e. exact (conj He (Hkeys "b.com")).
Defined.

Lemma C4_counterexample :
  (∃ c1 h1 e1,
     ReadCfg NewConfig []
       [node_open domains; multi "exclude" "a.com"] = Ok (c1, h1, e1)
     ∧ exc <$> node_of (tree c1) h1 domains = Some ["a.com"])
  ∧ (∃ c2 h2 e2,
       ReadCfg NewConfig []
         [node_open domains; multi "exclude" "a.com"; node_open domains]
       = Ok (c2, h2, e2)
       ∧ exc <$> node_of (tree c2) h2 domains = Some []).
Proof.
  split; eexists _, _, _; (split; [vm_compute; reflexivity|]);
    vm_compute; reflexivity.
Qed.

Lemma C4_witness :
  shape_of (node_open domains) = SNode domains
  ∧ node_of (c_tree after_exclude) (mem after_exclude) domains
    = Some (set_exc ["a.com"] newObject)
  ∧ ∃ st', dispatch after_exclude (node_open domains) = Ok st'
      ∧ node_of (c_tree st') (mem st') domains = Some newObject.
Proof.
  assert (Hs : shape_of (node_open domains) = SNode domains) by reflexivity.
  split; [exact Hs|]. split; [reflexivity|].
  destruct (C4_node_open_replaces after_exclude (node_open domains) domains
              Hs) as (st' & Hd & Hnew & _).
  exists st'. exact (conj Hd Hnew).
Defined.

Lemma C6_counterexample :
  shape_of (blackhole_ip "0.0.0.0") = SIpbh "0.0.0.0"
  ∧ ReadCfg NewConfig [] [blackhole_ip "0.0.0.0"] = Panic IndexOutOfRange
  ∧ (∃ st, foldM dispatch (scan_start NewConfig []) [leaf_open files "local"]
           = Ok st
           ∧ last (nodes st) = Some files ∧ files ≠ src
           ∧ dispatch st (blackhole_ip "0.0.0.0") = Panic NilDeref)
  ∧ ReadCfg NewConfig [] [leaf_open files "local"; blackhole_ip "0.0.0.0"]
    = Panic NilDeref.
Proof.
  split; [reflexivity|]. split; [vm_compute; reflexivity|]. split.
  - eexists. split; [vm_compute; reflexivity|]. split; [reflexivity|].
    split; [discriminate|]. vm_compute. reflexivity.
  - vm_compute. reflexivity.
Qed.

Lemma C6_witness :
  foldM dispatch (scan_start NewConfig []) (take 2 scenario) = Ok in_root
  ∧ last (nodes in_root) = Some rootNode
  ∧ (∃ st' n', dispatch in_root (blackhole_ip "0.0.0.0") = Ok st'
               ∧ c_tree st' = c_tree in_root
               ∧ mem st' !! 0 = Some n' ∧ ip n' = "0.0.0.0")
  ∧ foldM dispatch (scan_start NewConfig []) (take 6 scenario) = Ok in_source
  ∧ last (nodes in_source) = Some src
  ∧ (∃ st', dispatch in_source (blackhole_ip "10.0.0.1") = Ok st'
            ∧ c_tree st' = c_tree in_source ∧ ip_at (mem st') 1 "")
  ∧ dispatch (scan_start NewConfig []) (blackhole_ip "0.0.0.0")
    = Panic IndexOutOfRange.
Proof.
  assert (Hok : Config_ok NewConfig ([] : heap))
    by (by apply Config_ok_empty).
  assert (Hroot : foldM dispatch (scan_start NewConfig []) (take 2 scenario)
                  = Ok in_root) by (vm_compute; reflexivity).
  assert (Hpre : foldM dispatch (scan_start NewConfig []) (take 6 scenario)
                 = Ok in_source) by (vm_compute; reflexivity).
  assert (Hnone : foldM dispatch (scan_start NewConfig []) []
                  = Ok (scan_start NewConfig [])) by reflexivity.
  assert (Hs0 : shape_of (blackhole_ip "0.0.0.0") = SIpbh "0.0.0.0")
    by reflexivity.
  assert (Hs1 : shape_of (blackhole_ip "10.0.0.1") = SIpbh "10.0.0.1")
    by reflexivity.
  assert (Htop0 : last (nodes in_root) = Some rootNode) by reflexivity.
  assert (Hne : rootNode ≠ src) by discriminate.
  assert (Hcur0 : c_tree in_root !! tnode in_root = Some 0) by reflexivity.
  assert (Hn0 : mem in_root !! 0
                = Some (set_disabled (strToBool "false") newObject))
    by reflexivity.
  assert (Htop1 : last (nodes in_source) = Some src) by reflexivity.
  assert (Hcur1 : c_tree in_source !! tnode in_source = Some 1)
    by reflexivity.
  assert (Hn1 : mem in_source !! 1 = Some (set_exc ["example.org"] newObject))
    by reflexivity.
  assert (Ho1 : is_Some (o in_source)) by (exists 2; reflexivity).
  assert (Hempty : nodes (scan_start NewConfig []) = []) by reflexivity.
  destruct (C6_bare_ip_by_context NewConfig [] (take 2 scenario)
              (blackhole_ip "0.0.0.0") "0.0.0.0" in_root Hok Hroot Hs0)
    as (_ & Hset & _).
  destruct (proj2 (Hset rootNode Htop0 Hne) 0 _ Hcur0 Hn0)
    as (st0 & n0 & Hd0 & Ht0 & Hm0 & Hip0 & _).
  destruct (C6_bare_ip_by_context NewConfig [] (take 6 scenario)
              (blackhole_ip "10.0.0.1") "10.0.0.1" in_source Hok Hpre Hs1)
    as (_ & _ & Hsrc).
  destruct (Hsrc Htop1 1 _ Hcur1 Hn1) as [Hframe Htotal].
  destruct (Htotal Ho1) as [st1 Hd1].
  destruct (Hframe st1 Hd1) as [Ht1 Hip1].
  destruct (C6_bare_ip_by_context NewConfig [] []
              (blackhole_ip "0.0.0.0") "0.0.0.0" (scan_start NewConfig [])
              Hok Hnone Hs0) as (Hfault & _).
  split; [exact Hroot|]. split; [exact Htop0|].
  split; [exists st0, n0; exact (conj Hd0 (conj Ht0 (conj Hm0 Hip0)))|].
  split; [exact Hpre|]. split; [exact Htop1|].
  split; [exists st1; exact (conj Hd1 (conj Ht1 Hip1))|].
  exact (Hfault Hempty).
Defined.

Lemma C7_witness :
  shape_of close_brace = SRbrc
  ∧ ∃ st', dispatch in_source close_brace = Ok st'
      ∧ (∃ popped, nodes in_source = nodes st' ++ [popped])
      ∧ last (nodes st') = Some (tnode st').
Proof.
  assert (Hs : shape_of close_brace = SRbrc) by reflexivity.
  split; [exact Hs|].
  destruct (C7_close_brace_never_faults in_source close_brace Hs)
    as (st' & Hd & _ & _ & _ & _ & Hpop & _).
  exists st'. split; [exact Hd|]. apply Hpop. simpl. lia.
Defined.

Lemma C8_witness :
  parsed_tree !! domains = Some 1
  ∧ parsed_tree !! rootNode = Some 0
  ∧ ∃ h', validate parsed_tree parsed_store domains
          = Ok (h', {| Objects_Parms := None; x := [Some 3; Some 4] |})
      ∧ length h' = 5.
Proof.
  split; [reflexivity|]. split; [reflexivity|].
  destruct (C8_validate_fills_only_empty_ip parsed_tree parsed_store domains
              1 0
              (append_x (Some 4) (append_x (Some 3)
                 (set_exc ["b.com"] newObject)))
              (set_exc ["a.com"] (set_ip "0.0.0.0" newObject)))
    as (h' & v & _ & Hval & Hlen & _); try reflexivity.
  - intros p Hp. simpl in Hp.
    apply elem_of_cons in Hp as [->|Hp]; [exists 3; simpl; split; [done|lia]|].
    apply list_elem_of_singleton in Hp as ->.
    exists 4. simpl. split; [done|lia].
  - exists h'. exact (conj Hval Hlen).
Defined.



Lemma C10_counterexample :
  preceded_by_context no_context [leaf_open src "s"; named urls "u"] = true
  ∧ ReadCfg NewConfig [] [leaf_open src "s"; named urls "u"]
    = Panic NilDeref.
Proof. split; vm_compute; reflexivity. Qed.

Lemma C10_witness :
  context_exists no_context scenario = true
  ∧ (∃ c' h' e, ReadCfg NewConfig [] scenario = Ok (c', h', e))
  ∧ ReadCfg NewConfig [] [blackhole_ip "0.0.0.0"] = Panic IndexOutOfRange
  ∧ ReadCfg NewConfig [] [multi "exclude" "a.com"] = Panic NilDeref.
Proof.
  assert (Hok : Config_ok NewConfig ([] : heap))
    by (by apply Config_ok_empty).
  split; [reflexivity|].
  destruct (C10_scan_completes_with_context NewConfig [] scenario Hok)
    as (Hrun & _ & _).
  destruct (C10_scan_completes_with_context NewConfig [] [] Hok)
    as (_ & Hip & Hexc).
  assert (Hctx : context_exists no_context scenario = true) by reflexivity.
  assert (Hs1 : shape_of (blackhole_ip "0.0.0.0") = SIpbh "0.0.0.0")
    by reflexivity.
  assert (Hs2 : shape_of (multi "exclude" "a.com") = SMulti "exclude" "a.com")
    by reflexivity.
  assert (Hnil : tree NewConfig !! "" = None) by reflexivity.
  split; [exact (proj2 (Hrun Hctx))|]. split.
  - exact (Hip (blackhole_ip "0.0.0.0") "0.0.0.0" Hs1).
  - exact (Hexc (multi "exclude" "a.com") "a.com" Hs2 Hnil).
Defined.

(** Inputs for the further properties. *)

#[local] Existing Instance addObj_nothing.

Lemma parsed_nodes_stored :
  ∀ n l, parsed_tree !! n = Some l → is_Some (parsed_store !! l).
Proof.
  apply (bool_decide_unpack
           (map_Forall (λ (_ : string) l, is_Some (parsed_store !! l))
                       parsed_tree)).
  vm_compute. exact I.
Qed.

Lemma parsed_store_ok : store_ok parsed_store.
Proof.
  intros l ob p Hl Hp.
  destruct l as [|[|[|[|[|l]]]]]; simplify_eq/=.
  all: try by apply elem_of_nil in Hp.
  repeat (apply elem_of_cons in Hp as [->|Hp]);
    [..|by apply elem_of_nil in Hp]; eexists; (split; [done | lia]).
Qed.

Lemma store_ok_nil : store_ok ([] : heap).
Proof. intros l ob p Hl. done. Qed.


Lemma getIP_faults_witness :
  getIP parsed_tree parsed_store hosts = Ok "192.168.168.1"
  ∧ (getIP parsed_tree parsed_store zones = Panic NilDeref
     ↔ parsed_tree !! zones = None
       ∨ ∃ n, node_of parsed_tree parsed_store zones = Some n ∧ ip n = ""
              ∧ parsed_tree !! rootNode = None).
Proof.
  split.
  - destruct (getIP_faults_without_node_or_root parsed_tree parsed_store
                hosts parsed_nodes_stored) as (_ & _ & Hown).
    exact (Hown (set_ip "192.168.168.1" newObject) eq_refl
             ltac:(discriminate)).
  - exact (proj1 (getIP_faults_without_node_or_root parsed_tree parsed_store
                    zones parsed_nodes_stored)).
Defined.

Lemma excludes_named_witness :
  ∃ e, excludes parsed parsed_store (Some [domains; rootNode]) = Ok e
       ∧ RWMutex e = None
       ∧ (is_Some (list_entry e !! "a.com")
          ↔ ∃ n ob, n ∈ [domains; rootNode]
                    ∧ node_of parsed_tree parsed_store n = Some ob
                    ∧ "a.com" ∈ exc ob).
Proof.
  destruct (excludes_of_named_nodes parsed parsed_store [domains; rootNode])
    as [(e & He & Hlock & Hkeys) _].
  - intros n Hn. apply elem_of_cons in Hn as [->|Hn]; [by eexists|].
    apply list_elem_of_singleton in Hn as ->. by eexists.
  - exists e. exact (conj He (conj Hlock (Hkeys "a.com"))).
Defined.

Lemma excludes_faults_witness :
  excludes parsed parsed_store (Some [domains; zones]) = Panic NilDeref.
Proof.
  apply (excludes_faults_on_missing_node parsed parsed_store
           [domains; zones] zones).
  - right. left.
  - reflexivity.
Defined.

Lemma addExc_witness :
  ∃ agg, addExc parsed parsed_store domains
         = Ok (parsed_store ++ [agg],
               {| Objects_Parms := Some test_Parms; x := [Some 5] |})
    ∧ exc agg = ["b.com"] ∧ ip agg = "0.0.0.0".
Proof.
  destruct (addExc_one_new_aggregate parsed parsed_store domains
              (append_x (Some 4) (append_x (Some 3)
                 (set_exc ["b.com"] newObject)))
              "0.0.0.0" eq_refl eq_refl)
    as (agg & Hagg & Hexc & Hip & _).
  exists agg. exact (conj Hagg (conj Hexc Hip)).
Defined.

Lemma views_fault_witness :
  parsed_tree !! zones = None
  ∧ validate parsed_tree parsed_store zones = Panic NilDeref
  ∧ addExc parsed parsed_store zones = Panic NilDeref.
Proof.
  assert (Hn : tree parsed !! zones = None) by reflexivity.
  split; [exact Hn|].
  destruct (views_fault_on_missing_node parsed parsed_store zones Hn)
    as (_ & Hv & He & _).
  exact (conj Hv He).
Defined.

Lemma addInc_witness :
  addInc parsed parsed_store domains = Ok (parsed_store, None).
Proof.
  destruct (addInc_nil_iff_no_includes parsed parsed_store domains
              (append_x (Some 4) (append_x (Some 3)
                 (set_exc ["b.com"] newObject)))
              "0.0.0.0" eq_refl eq_refl) as [Hnil _].
  exact (proj1 Hnil eq_refl).
Defined.

Lemma validate_twice_witness :
  ∃ h1 objs,
    validate parsed_tree parsed_store domains = Ok (h1, objs)
    ∧ validate parsed_tree h1 domains = Ok (h1, objs).
Proof.
  eexists _, _. split; [vm_compute; reflexivity|].
  eapply (validate_twice_is_validate_once parsed_tree parsed_store _ domains
            1 0); try reflexivity.
  intros p Hp. exact (parsed_store_ok 1 _ p eq_refl Hp).
Defined.

Lemma GetAll_sources_witness :
  ∃ h', GetAll parsed parsed_store (Some [urls])
        = Ok (h', {| Objects_Parms := Some test_Parms; x := [Some 3] |})
    ∧ resolved_store parsed_store h'.
Proof.
  assert (Hd : urls ≠ PreDomns) by discriminate.
  assert (Hh : urls ≠ PreHosts) by discriminate.
  assert (Hr : tree parsed !! rootNode = Some 0) by reflexivity.
  assert (Hlr : is_Some (parsed_store !! 0)) by (by eexists).
  assert (Hnds : ∀ node, node ∈ Parms_Nodes (Config_Parms parsed) →
                   is_Some (node_of (tree parsed) parsed_store node)).
  { intros node Hn. apply elem_of_cons in Hn as [->|Hn]; [by eexists|].
    apply list_elem_of_singleton in Hn as ->. by eexists. }
  destruct (GetAll_sources_in_declaration_order parsed parsed_store urls 0
              Hd Hh Hr Hlr Hnds parsed_store_ok) as (h' & Hget & Hres).
  exists h'. exact (conj Hget Hres).
Defined.

Lemma GetAll_once_witness :
  GetAll bare_nodes bare_store (Some [PreDomns; PreDomns; urls])
  = GetAll bare_nodes bare_store (Some [PreDomns; urls]).
Proof.
  exact (GetAll_preconfigured_type_counts_once bare_nodes bare_store PreDomns
           [urls] (or_introl eq_refl)).
Defined.

Lemma ReadCfg_node_names_witness :
  ReadCfg NewConfig [] scenario = Ok (scenario_config, scenario_store, None)
  ∧ (is_Some (tree scenario_config !! domains)
     ↔ is_Some (tree NewConfig !! domains)
       ∨ ∃ l, l ∈ scenario ∧ shape_of l = SNode domains).
Proof.
  assert (Hrun : ReadCfg NewConfig [] scenario
                 = Ok (scenario_config, scenario_store, None))
    by (vm_compute; reflexivity).
  split; [exact Hrun|].
  exact (proj2 (ReadCfg_node_names NewConfig scenario_config []
                  scenario_store scenario None Hrun) domains).
Defined.

Lemma scan_keeps_outermost_block_witness :
  head (nodes in_source) = Some rootNode
  ∧ ∃ st', foldM dispatch in_source [close_brace; close_brace; close_brace]
           = Ok st'
      ∧ head (nodes st') = Some rootNode ∧ 1 ≤ length (nodes st').
Proof.
  split; [reflexivity|]. eexists. split; [vm_compute; reflexivity|].
  eapply (scan_keeps_outermost_block [close_brace; close_brace; close_brace]
            in_source); [reflexivity | vm_compute; reflexivity].
Defined.

Lemma ignored_lines_witness :
  Forall ignored [misc; other; named "comment" "x"; multi "only" "y"]
  ∧ ReadCfg NewConfig []
      (take 4 scenario
       ++ [misc; other; named "comment" "x"; multi "only" "y"]
       ++ drop 4 scenario)
    = ReadCfg NewConfig [] (take 4 scenario ++ drop 4 scenario).
Proof.
  assert (Hign : Forall ignored
                   [misc; other; named "comment" "x"; multi "only" "y"]).
  { repeat constructor; vm_compute; try done. }
  split; [exact Hign|].
  exact (ReadCfg_passes_over_ignored_lines NewConfig [] (take 4 scenario) _
           (drop 4 scenario) Hign).
Defined.

Lemma multi_value_witness :
  foldM dispatch after_exclude
    [multi "include" "i.com"; multi "exclude" "b.com"]
  = Ok (with_mem
          [set_inc ["i.com"] (set_exc ["a.com"; "b.com"] newObject)]
          after_exclude).
Proof.
  assert (Hall : Forall2
            (λ (l : cfgline) (kv : string * string),
               shape_of l = SMulti kv.1 kv.2
               ∧ (kv.1 = "exclude" ∨ kv.1 = "include"))
            [multi "include" "i.com"; multi "exclude" "b.com"]
            [("include", "i.com"); ("exclude", "b.com")]).
  { constructor; [split; [reflexivity | by right]|].
    constructor; [split; [reflexivity | by left]|]. constructor. }
  exact (multi_value_lines_accumulate _ _ after_exclude 0
           (set_exc ["a.com"] newObject) eq_refl eq_refl Hall).
Defined.

Lemma ReadCfg_pointers_witness :
  ReadCfg NewConfig [] scenario = Ok (scenario_config, scenario_store, None)
  ∧ Config_ok scenario_config scenario_store
  ∧ store_ok scenario_store.
Proof.
  assert (Hrun : ReadCfg NewConfig [] scenario
                 = Ok (scenario_config, scenario_store, None))
    by (vm_compute; reflexivity).
  split; [exact Hrun|].
  exact (ReadCfg_keeps_pointers_valid NewConfig scenario_config []
           scenario_store scenario None
           (Config_ok_empty NewConfig [] eq_refl) store_ok_nil Hrun).
Defined.

Lemma validate_after_ReadCfg_witness :
  ∃ h'' objs,
    validate (tree scenario_config) scenario_store domains = Ok (h'', objs)
    ∧ x objs = node_sources (tree scenario_config) scenario_store domains
    ∧ resolved_store scenario_store h''.
Proof.
  assert (Hrun : ReadCfg NewConfig [] scenario
                 = Ok (scenario_config, scenario_store, None))
    by (vm_compute; reflexivity).
  apply (validate_completes_after_ReadCfg NewConfig scenario_config []
           scenario_store scenario None domains
           (Config_ok_empty NewConfig [] eq_refl) store_ok_nil Hrun).
  - by eexists.
  - by eexists.
Defined.

Lemma source_block_witness :
  foldM dispatch after_exclude
    [leaf_open src "s"; named "prefix" "p"; named urls "u"]
  = foldM dispatch after_exclude
      [leaf_open src "s"; named urls "u"; named "prefix" "p"].
Proof.
  refine (proj1 (source_block_attribute_order after_exclude 0
                   (set_exc ["a.com"] newObject)
                   (leaf_open src "s") (named urls "u") (named "prefix" "p")
                   "s" "u" "prefix" "p" _ _ _ _ _ _)); try reflexivity.
  right. left.
Defined.

End inputs.

End edgeos.
